(** * EventBus: a shallow embedding of include/EventBus.h and src/EventBus.cpp

    The bus is a typed publish/subscribe registry.  This development embeds
    the topic matcher, the response capsules, the handler adapter installed by
    [subscribe], the registry operations, the synchronous dispatch [post] and
    the worker loop [dispatchLoop], and states the properties of the
    specification over these definitions. *)

From Stdlib Require Import String Ascii ZArith NArith List Lia Bool.
From Stdlib Require Import Sorting.Sorted Sorting.Permutation.
From stdpp Require Import base option list.

Local Open Scope string_scope.
Local Open Scope list_scope.

(** ** Machine integers

    [HandlerId] is [size_t]; the development fixes the LP64 width.  Unsigned
    arithmetic wraps modulo [2 ^ size_t_bits]. *)

Definition size_t_bits : N := 64.
Definition size_t_modulus : N := 2 ^ size_t_bits.
Definition size_t_wrap (z : Z) : N := Z.to_N (z mod Z.of_N size_t_modulus).

(** ** Strings ([std::string]) *)

Definition Topic := string.

(** [std::string::back()]: the last character.  The call has undefined
    behaviour on an empty string, which is [None] here. *)
Fixpoint back (s : string) : option ascii :=
  match s with
  | EmptyString => None
  | String c EmptyString => Some c
  | String _ rest => back rest
  end.

(** [s.substr(pos, count)] for [pos <= s.size()]: at most [count] characters,
    fewer when the string ends first. *)
Definition substr (s : string) (pos count : nat) : string := substring pos count s.

(** [s.compare(pos1, count1, t, pos2, count2) == 0]: both ranges are clipped
    to their strings and compared as strings. *)
Definition compare_is_0 (s : string) (pos1 count1 : nat) (t : string) (pos2 count2 : nat) : bool :=
  String.eqb (substr s pos1 count1) (substr t pos2 count2).

(** ** Topic matcher: [EventBus::isTopicMatch] (EventBus.cpp, lines 34-41)

    The result is [None] when the evaluation runs into undefined behaviour. *)
Definition isTopicMatch (pattern topic : Topic) : option bool :=
  if String.eqb pattern "*" then Some true
  else
    match back pattern with
    | None => None
    | Some c =>
        let n := N.to_nat (size_t_wrap (Z.of_nat (String.length pattern) - 1)) in
        if Ascii.eqb c "*"%char && compare_is_0 topic 0 n pattern 0 n
        then Some true
        else Some (String.eqb pattern topic)
    end.

(** "The last character of [s] is [c]"; no string of length 0 has one. *)
Definition last_char_is (c : ascii) (s : string) : bool :=
  match String.length s with
  | O => false
  | S k => match String.get k s with Some d => Ascii.eqb d c | None => false end
  end.

(** The matcher as the specification words it (section 4.3): rule 1 for the
    literal ["*"], rule 2 for a pattern whose last character is ['*'], rule 3
    (exact match) for every other pattern, the empty one included. *)
Definition match_spec (pattern topic : string) : bool :=
  if String.eqb pattern "*" then true
  else if last_char_is "*"%char pattern
       then String.eqb (substring 0 (String.length pattern - 1) topic)
                       (substring 0 (String.length pattern - 1) pattern)
       else String.eqb pattern topic.


(** ** Exceptions

    A thrown object either belongs to a class derived from [std::exception]
    ([std::runtime_error] is one) or it does not ([throw 42;]).  The handlers
    of [post] and [dispatchLoop] are [catch (std::exception e)]. *)
Inductive exn : Type :=
| runtime_error (what : string)
| other_std_exception (what : string)
| foreign_exception (what : string).

Definition derived_from_std_exception (e : exn) : bool :=
  match e with
  | runtime_error _ | other_std_exception _ => true
  | foreign_exception _ => false
  end.

(** The [InvalidResponse] condition of the specification is the
    [std::runtime_error("Invalid response")] of [TypedResponse::get]. *)
Definition InvalidResponse : exn := runtime_error "Invalid response".

(** The result of a call that may throw. *)
Inductive result (A : Type) : Type :=
| Return (a : A)
| Throw (e : exn).
Arguments Return {A} a.
Arguments Throw {A} e.

(** [std::type_info] identities are compared for equality only. *)
Definition type_info := string.

Definition HandlerId := N.
Definition loc := nat.

Section EventBus.

(** The values of the payload and response types. *)
Context {V : Type}.

(** ** Response capsules (EventBus.h, lines 28-72) *)

(** [TypedResponse<T>]: the default constructor leaves [data_] at [T()] and
    clears [valid_]. *)
Record TypedResponse : Type := { data_ : V; valid_ : bool }.

Definition TypedResponse_of (data : V) : TypedResponse :=
  {| data_ := data; valid_ := true |}.
Definition TypedResponse_default (default_T : V) : TypedResponse :=
  {| data_ := default_T; valid_ := false |}.

Definition TypedResponse_get (r : TypedResponse) : result V :=
  if negb (valid_ r) then Throw (runtime_error "Invalid response")
  else Return (data_ r).
Definition TypedResponse_isValid (r : TypedResponse) : result bool :=
  Return (valid_ r).

(** [TypedResponse<void>]: the constructor is [TypedResponse(bool valid = true)]. *)
Record TypedResponseVoid : Type := { void_valid_ : bool }.

Definition TypedResponseVoid_new (valid : bool) : TypedResponseVoid :=
  {| void_valid_ := valid |}.
Definition TypedResponseVoid_default : TypedResponseVoid :=
  TypedResponseVoid_new true.

Definition TypedResponseVoid_get (r : TypedResponseVoid) : result unit :=
  if negb (void_valid_ r) then Throw (runtime_error "Invalid response")
  else Return tt.
Definition TypedResponseVoid_isValid (r : TypedResponseVoid) : result bool :=
  Return (void_valid_ r).

(** A [Response] object behind a [shared_ptr<Response>]: one of the two
    derived classes, the typed one tagged with its [T]. *)
Inductive Response : Type :=
| ResponseTyped (T : type_info) (r : TypedResponse)
| ResponseVoid (r : TypedResponseVoid).

(** The virtual [Response::isValid()]. *)
Definition isValid (r : Response) : bool :=
  match r with
  | ResponseTyped _ t => valid_ t
  | ResponseVoid v => void_valid_ v
  end.

Definition is_void_capsule (r : Response) : bool :=
  match r with ResponseVoid _ => true | ResponseTyped _ _ => false end.

(** ** The store

    Objects created by [std::make_shared] live in a store addressed by
    locations: a [TypedMessage<T>] (the envelope) holds its [data_] by value,
    a payload cell is the [T] that [make_shared<T>] builds for a handler. *)
Inductive Cell : Type :=
| TypedMessage (T : type_info) (msg_data_ : V)
| Payload (T : type_info) (value : V).

Definition Heap := list Cell.

Definition make_shared (c : Cell) (H : Heap) : loc * Heap :=
  (List.length H, H ++ [c]).

(** ** Handlers *)

(** What a call of a handler does: it returns a [shared_ptr<Response>]
    ([None] is the null pointer) or it throws.  A handler acts on the store;
    a handler body that calls back into the bus is outside this model of a
    handler: [thread_system_step] below has such calls as actions next to
    the handler's call. *)
Inductive Outcome : Type :=
| Returns (r : option Response)
| Throws (e : exn).

(** [std::function<shared_ptr<Response>(shared_ptr<T>)>]: the caller's
    handler, given the location of its [T] and the store. *)
Definition UserHandler := loc -> Heap -> Outcome * Heap.

(** [Handler]: [std::function<shared_ptr<Response>(shared_ptr<Message>)>]. *)
Definition Handler := loc -> Heap -> Outcome * Heap.

(** [std::dynamic_pointer_cast<TypedMessage<T>>(msg)], followed by [get()]. *)
Definition dynamic_pointer_cast (T : type_info) (msg : loc) (H : Heap) : option V :=
  match H !! msg with
  | Some (TypedMessage U d) => if String.eqb U T then Some d else None
  | _ => None
  end.

(** The adapter of [subscribe] (EventBus.h, lines 136-142).  [get()] returns
    a [const T&], so [std::move] of it selects the copy constructor:
    [make_shared<T>] builds a new [T] from the envelope's value. *)
Definition wrappedHandler (T : type_info) (handler : UserHandler) : Handler :=
  fun msg H =>
    match dynamic_pointer_cast T msg H with
    | None => (Returns (Some (ResponseVoid TypedResponseVoid_default)), H)
    | Some d =>
        let '(p, H1) := make_shared (Payload T d) H in
        handler p H1
    end.

(** ** The registry *)

Record Subscription : Type := {
  id : HandlerId;
  topicPattern : Topic;
  handler : Handler;
  priority : Z
}.

(** [Subscription::operator<]. *)
Definition Subscription_lt (a b : Subscription) : bool :=
  (priority a <? priority b)%Z.

Record MessageEvent : Type := { topic : Topic; message : loc }.

Record EventBus : Type := {
  subscriptions_ : list Subscription;
  messageQueue_ : list MessageEvent;
  running_ : bool;
  handlerIdCounter_ : N
}.

(** The constructor: [running_(false), handlerIdCounter_(0)]. *)
Definition EventBus_new : EventBus :=
  {| subscriptions_ := []; messageQueue_ := []; running_ := false;
     handlerIdCounter_ := 0 |}.

(** [std::stable_sort] with [operator<]: the result of a stable sort is
    determined by its input, and insertion from the back computes it: an
    element goes in front of the first one that is not smaller than it. *)
Fixpoint stable_insert (x : Subscription) (l : list Subscription) : list Subscription :=
  match l with
  | [] => [x]
  | y :: l' => if Subscription_lt y x then y :: stable_insert x l' else x :: y :: l'
  end.

Fixpoint stable_sort (l : list Subscription) : list Subscription :=
  match l with
  | [] => []
  | x :: l' => stable_insert x (stable_sort l')
  end.

(** [erase(remove_if(begin, end, pred), end)]. *)
Fixpoint remove_if (pred : Subscription -> bool) (l : list Subscription) : list Subscription :=
  match l with
  | [] => []
  | x :: l' => if pred x then remove_if pred l' else x :: remove_if pred l'
  end.

(** [EventBus::subscribe<T>] (EventBus.h, lines 128-154). *)
Definition subscribe (T : type_info) (pattern : Topic) (h : UserHandler)
    (prio : Z) (bus : EventBus) : HandlerId * EventBus :=
  let new_id := size_t_wrap (Z.of_N (handlerIdCounter_ bus) + 1) in
  let sub := {| id := new_id; topicPattern := pattern;
                handler := wrappedHandler T h; priority := prio |} in
  (new_id,
   {| subscriptions_ := stable_sort (subscriptions_ bus ++ [sub]);
      messageQueue_ := messageQueue_ bus;
      running_ := running_ bus;
      handlerIdCounter_ := new_id |}).

(** [EventBus::unsubscribe] (EventBus.cpp, lines 26-32). *)
Definition unsubscribe (i : HandlerId) (bus : EventBus) : EventBus :=
  {| subscriptions_ := remove_if (fun sub => N.eqb (id sub) i) (subscriptions_ bus);
     messageQueue_ := messageQueue_ bus;
     running_ := running_ bus;
     handlerIdCounter_ := handlerIdCounter_ bus |}.

(** The loop that copies the matching subscriptions under the registry lock
    (the same in [post] and in [dispatchLoop]); [None] when a call of
    [isTopicMatch] is undefined. *)
Fixpoint snapshotMatching (subs : list Subscription) (tp : Topic) : option (list Subscription) :=
  match subs with
  | [] => Some []
  | sub :: rest =>
      match isTopicMatch (topicPattern sub) tp with
      | None => None
      | Some b =>
          match snapshotMatching rest tp with
          | None => None
          | Some handlers => Some (if b then sub :: handlers else handlers)
          end
      end
  end.

(** ** Dispatch *)

(** One call of a subscription's handler, as the dispatch loops make it:
    the store the call started from and what the call did.  The list of
    these records is kept beside the results, for the statements below; the
    C++ code returns the results only. *)
Record Invocation : Type := {
  inv_sub : Subscription;
  inv_heap : Heap;
  inv_outcome : Outcome
}.

(** How a dispatch ends: it runs to its end, or an exception leaves it, or it
    runs into undefined behaviour. *)
Inductive Completion : Type :=
| Completed (results : list Response)
| Propagated (e : exn)
| UndefinedBehaviour.

Record Run : Type := {
  completion : Completion;
  trace : list Invocation;
  final_heap : Heap
}.

Definition record_call (inv : Invocation) (r : Run) : Run :=
  {| completion := completion r; trace := inv :: trace r;
     final_heap := final_heap r |}.

(** The invocation loop of [post] (EventBus.h, lines 172-184):
    [result->isValid()] dereferences the returned pointer, and the [catch]
    clause takes the exceptions derived from [std::exception] only.  What
    the clause writes to [std::cerr] is left out. *)
Fixpoint post_invoke (handlers : list Subscription) (msg : loc) (H : Heap)
    (results : list Response) : Run :=
  match handlers with
  | [] => {| completion := Completed results; trace := []; final_heap := H |}
  | sub :: rest =>
      let '(out, H') := handler sub msg H in
      let inv := {| inv_sub := sub; inv_heap := H; inv_outcome := out |} in
      match out with
      | Returns (Some result) =>
          record_call inv
            (post_invoke rest msg H'
               (if isValid result then results ++ [result] else results))
      | Returns None =>
          {| completion := UndefinedBehaviour; trace := [inv]; final_heap := H' |}
      | Throws e =>
          if derived_from_std_exception e
          then record_call inv (post_invoke rest msg H' results)
          else {| completion := Propagated e; trace := [inv]; final_heap := H' |}
      end
  end.

(** [EventBus::post<T>] (EventBus.h, lines 156-185). *)
Definition post (T : type_info) (tp : Topic) (message : V)
    (bus : EventBus) (H : Heap) : Run :=
  let '(msg, H0) := make_shared (TypedMessage T message) H in
  match snapshotMatching (subscriptions_ bus) tp with
  | None => {| completion := UndefinedBehaviour; trace := []; final_heap := H0 |}
  | Some handlers => post_invoke handlers msg H0 []
  end.

(** [EventBus::postAsync<T>] (EventBus.h, lines 187-196). *)
Definition postAsync (T : type_info) (tp : Topic) (message : V)
    (bus : EventBus) (H : Heap) : EventBus * Heap :=
  let '(msg, H0) := make_shared (TypedMessage T message) H in
  ({| subscriptions_ := subscriptions_ bus;
      messageQueue_ := messageQueue_ bus ++ [ {| topic := tp; message := msg |} ];
      running_ := running_ bus;
      handlerIdCounter_ := handlerIdCounter_ bus |},
   H0).

(** [start] and [stop] (EventBus.cpp, lines 11-24) as they act on the flag;
    the worker thread is the machine below. *)
Definition set_running (b : bool) (bus : EventBus) : EventBus :=
  {| subscriptions_ := subscriptions_ bus;
     messageQueue_ := messageQueue_ bus;
     running_ := b;
     handlerIdCounter_ := handlerIdCounter_ bus |}.

Definition start (bus : EventBus) : EventBus := set_running true bus.
Definition stop (bus : EventBus) : EventBus := set_running false bus.

(** The invocation loop of [dispatchLoop] (EventBus.cpp, lines 68-74): the
    returned pointer is dropped without being read. *)
Fixpoint dispatch_invoke (handlers : list Subscription) (msg : loc) (H : Heap) : Run :=
  match handlers with
  | [] => {| completion := Completed []; trace := []; final_heap := H |}
  | sub :: rest =>
      let '(out, H') := handler sub msg H in
      let inv := {| inv_sub := sub; inv_heap := H; inv_outcome := out |} in
      match out with
      | Returns _ => record_call inv (dispatch_invoke rest msg H')
      | Throws e =>
          if derived_from_std_exception e
          then record_call inv (dispatch_invoke rest msg H')
          else {| completion := Propagated e; trace := [inv]; final_heap := H' |}
      end
  end.

(** ** The worker: [EventBus::dispatchLoop] (EventBus.cpp, lines 43-76)

    The worker thread is a machine over its program points.  Each step reads
    the atomic [running_] once, so [stop] can fall between any two of them;
    the queue lock is held from the end of the wait to the [pop].  Taking a
    message, copying the matching subscriptions and calling them is one
    step here; [thread_step] below takes them apart, one handler call at a
    time. *)
Inductive WorkerPc : Type :=
| AtWhile        (* about to test [while (running_)] *)
| AtWait         (* in [cv_.wait(lock, pred)] *)
| AfterWait      (* the wait is over, before [if (!running_) return;] *)
| Exited         (* [dispatchLoop] has returned *)
| Terminated     (* an exception left the thread function: [std::terminate] *)
| Undefined.     (* undefined behaviour *)

Record Worker : Type := {
  pc : WorkerPc;
  bus_of : EventBus;
  heap_of : Heap;
  delivered : list Invocation
}.

Definition dequeue (bus : EventBus) (q : list MessageEvent) : EventBus :=
  {| subscriptions_ := subscriptions_ bus;
     messageQueue_ := q;
     running_ := running_ bus;
     handlerIdCounter_ := handlerIdCounter_ bus |}.

Definition at_pc (p : WorkerPc) (w : Worker) : Worker :=
  {| pc := p; bus_of := bus_of w; heap_of := heap_of w; delivered := delivered w |}.

(** One step of the worker; [None] when it cannot move: it is suspended in
    the wait, or it is over. *)
Definition dispatchLoop_step (w : Worker) : option Worker :=
  let bus := bus_of w in
  match pc w with
  | AtWhile =>
      Some (at_pc (if running_ bus then AtWait else Exited) w)
  | AtWait =>
      if negb (running_ bus) || negb (match messageQueue_ bus with [] => true | _ => false end)
      then Some (at_pc AfterWait w)
      else None
  | AfterWait =>
      if negb (running_ bus) then Some (at_pc Exited w)
      else
        match messageQueue_ bus with
        | [] => Some (at_pc Undefined w)      (* [front()] of an empty queue *)
        | event :: q =>
            let bus' := dequeue bus q in
            match snapshotMatching (subscriptions_ bus') (topic event) with
            | None =>
                Some {| pc := Undefined; bus_of := bus'; heap_of := heap_of w;
                        delivered := delivered w |}
            | Some handlers =>
                let r := dispatch_invoke handlers (message event) (heap_of w) in
                Some {| pc := match completion r with
                              | Completed _ => AtWhile
                              | Propagated _ => Terminated
                              | UndefinedBehaviour => Undefined
                              end;
                        bus_of := bus';
                        heap_of := final_heap r;
                        delivered := delivered w ++ trace r |}
            end
        end
  | Exited | Terminated | Undefined => None
  end.

(** What the other threads do between two steps of the worker. *)
Inductive Action : Type :=
| WorkerStep
| CallStop
| CallPostAsync (T : type_info) (tp : Topic) (message : V)
| CallSubscribe (T : type_info) (pattern : Topic) (h : UserHandler) (prio : Z)
| CallUnsubscribe (i : HandlerId).

Definition on_bus (f : EventBus -> EventBus) (w : Worker) : Worker :=
  {| pc := pc w; bus_of := f (bus_of w); heap_of := heap_of w;
     delivered := delivered w |}.

Definition system_step (a : Action) (w : Worker) : option Worker :=
  match a with
  | WorkerStep => dispatchLoop_step w
  | CallStop => Some (on_bus stop w)
  | CallPostAsync T tp m =>
      match pc w with
      | AfterWait => None      (* the worker holds the queue lock *)
      | _ =>
          let '(bus', H') := postAsync T tp m (bus_of w) (heap_of w) in
          Some {| pc := pc w; bus_of := bus'; heap_of := H'; delivered := delivered w |}
      end
  | CallSubscribe T pattern h prio =>
      Some (on_bus (fun b => snd (subscribe T pattern h prio b)) w)
  | CallUnsubscribe i => Some (on_bus (unsubscribe i) w)
  end.

Fixpoint system_run (acts : list Action) (w : Worker) : option Worker :=
  match acts with
  | [] => Some w
  | a :: rest =>
      match system_step a w with
      | None => None
      | Some w' => system_run rest w'
      end
  end.

(** The worker right after [start()] on a bus: the thread is at the head of
    its loop. *)
Definition started (bus : EventBus) (H : Heap) : Worker :=
  {| pc := AtWhile; bus_of := start bus; heap_of := H; delivered := [] |}.

(** ** Sequences of registry operations *)

Inductive RegistryOp : Type :=
| OpSubscribe (T : type_info) (pattern : Topic) (h : UserHandler) (prio : Z)
| OpUnsubscribe (i : HandlerId).

(** Runs the operations in order; the first component lists the identifiers
    that the [subscribe] calls returned, in the order of the calls. *)
Fixpoint run_ops (ops : list RegistryOp) (bus : EventBus) : list HandlerId * EventBus :=
  match ops with
  | [] => ([], bus)
  | OpSubscribe T pattern h prio :: rest =>
      let '(i, bus1) := subscribe T pattern h prio bus in
      let '(ids, bus2) := run_ops rest bus1 in
      (i :: ids, bus2)
  | OpUnsubscribe i :: rest => run_ops rest (unsubscribe i bus)
  end.

Definition is_subscribe (op : RegistryOp) : bool :=
  match op with OpSubscribe _ _ _ _ => true | OpUnsubscribe _ => false end.

Definition count_subscribes (ops : list RegistryOp) : nat :=
  List.length (List.filter is_subscribe ops).

(** The registry order: by priority, and by identifier among equal
    priorities. *)
Definition registry_order (a b : Subscription) : Prop :=
  (priority a < priority b)%Z \/ (priority a = priority b /\ (id a < id b)%N).

(** What a valid capsule adds to the results of [post]. *)
Definition contribution (inv : Invocation) : list Response :=
  match inv_outcome inv with
  | Returns (Some r) => if isValid r then [r] else []
  | _ => []
  end.

Definition matches (tp : Topic) (sub : Subscription) : bool :=
  match isTopicMatch (topicPattern sub) tp with
  | Some b => b
  | None => false
  end.

(** Ties are in registration order when, among equal priorities, the earlier
    element has the smaller identifier. *)
Definition tie_order (sub other : Subscription) : Prop :=
  priority sub = priority other -> (id sub < id other)%N.

(** The invariant of the registry. *)
Definition registry_inv (bus : EventBus) : Prop :=
  StronglySorted registry_order (subscriptions_ bus) /\
  List.NoDup (map id (subscriptions_ bus)) /\
  List.Forall (fun s => (0 < id s <= handlerIdCounter_ bus)%N) (subscriptions_ bus).

(** No live subscription has the identifier. *)
Definition absent (i : HandlerId) (bus : EventBus) : Prop :=
  forall sub, In sub (subscriptions_ bus) -> id sub <> i.

(** What the statements ask of the callers' handlers. *)

(** Every exception the handler throws is derived from [std::exception]. *)
Definition throws_only_std (h : Handler) : Prop :=
  forall msg H e, fst (h msg H) = Throws e -> derived_from_std_exception e = true.

(** The handler never returns a null pointer. *)
Definition never_null (h : Handler) : Prop :=
  forall msg H, fst (h msg H) <> Returns None.

(** The handler reaches the objects of the store through its argument and
    through what it holds already: a cell [m] that is not its argument keeps
    its content. *)
Definition preserves_cell (m : loc) (h : UserHandler) : Prop :=
  forall (p : loc) (H : Heap) (c : Cell),
    p <> m -> H !! m = Some c -> snd (h p H) !! m = Some c.

End EventBus.

(** ** Scenarios

    The handlers and buses of tests/EventBusTests.cpp and examples/Main.cpp,
    over integer payloads (a price is an amount of cents). *)

Definition TradeEvent : type_info := "TradeEvent".
Definition VoidMessage : type_info := "VoidMessage".
Definition RiskResult : type_info := "RiskResult".

(** [return std::make_shared<TypedResponse<void>>();] *)
Definition void_handler : @UserHandler Z :=
  fun _ H => (Returns (Some (ResponseVoid TypedResponseVoid_default)), H).

(** The handler of the ResponseData test: [{true, "OK"}] above 100. *)
Definition risk_handler : @UserHandler Z :=
  fun p H =>
    match H !! p with
    | Some (Payload _ price) =>
        (Returns (Some (ResponseTyped RiskResult
                          (TypedResponse_of (if (10000 <? price)%Z then 1%Z else 0%Z)))), H)
    | _ => (Throws (other_std_exception "no payload"), H)
    end.

(** [return std::make_shared<TypedResponse<RiskResult>>();] *)
Definition declining_handler : @UserHandler Z :=
  fun _ H => (Returns (Some (ResponseTyped RiskResult (TypedResponse_default 0%Z))), H).

(** [throw std::runtime_error("handler failed");] *)
Definition throwing_handler : @UserHandler Z :=
  fun _ H => (Throws (runtime_error "handler failed"), H).

(** [throw 42;] *)
Definition throwing_int_handler : @UserHandler Z :=
  fun _ H => (Throws (foreign_exception "int"), H).

(** [*trade = TradeEvent{}; return ...;]: the handler writes to the object
    it is given. *)
Definition overwriting_handler : @UserHandler Z :=
  fun p H => (Returns (Some (ResponseVoid TypedResponseVoid_default)),
              <[p := Payload TradeEvent 0%Z]> H).

(** BasicSubscription: one handler on ["trade.test"]. *)
Definition basic_bus : @EventBus Z :=
  snd (subscribe TradeEvent "trade.test" void_handler 0 EventBus_new).

(** Main.cpp, scenario 1: a [TradeEvent] and a [VoidMessage] handler on
    ["basic.trade"]. *)
Definition mixed_bus : @EventBus Z :=
  snd (subscribe VoidMessage "basic.trade" void_handler 0
         (snd (subscribe TradeEvent "basic.trade" risk_handler 0 EventBus_new))).

(** Registry operations with priorities 100, 10, 10 and a removal. *)
Definition priority_ops : list (@RegistryOp Z) :=
  [ OpSubscribe TradeEvent "trade.priority" risk_handler 100;
    OpSubscribe TradeEvent "trade.*" throwing_handler 10;
    OpSubscribe TradeEvent "trade.priority" declining_handler 10;
    OpSubscribe VoidMessage "*" void_handler 50;
    OpSubscribe TradeEvent "trade.priority" overwriting_handler 0;
    OpUnsubscribe 4%N ].

Definition priority_bus : @EventBus Z := snd (run_ops priority_ops EventBus_new).

(** ResponseData: the risk handler on ["trade.response"]. *)
Definition response_bus : @EventBus Z :=
  snd (subscribe TradeEvent "trade.response" risk_handler 0 EventBus_new).

(** A handler that throws an [int], ahead of a handler that answers. *)
Definition faulty_bus : @EventBus Z :=
  snd (subscribe TradeEvent "trade.test" void_handler 20
         (snd (subscribe TradeEvent "trade.test" throwing_int_handler 10 EventBus_new))).

(** The [k]-th round of a client that subscribes and unsubscribes at once:
    [auto id = bus.subscribe<T>(pattern, h, prio); bus.unsubscribe(id);],
    where the [k]-th [subscribe] call on a new bus returns [k] modulo
    [2 ^ 64]. *)
Definition churn_round {V : Type} (T : type_info) (pattern : Topic)
    (h : @UserHandler V) (prio : Z) (k : nat) : list (@RegistryOp V) :=
  [ OpSubscribe T pattern h prio; OpUnsubscribe (size_t_wrap (Z.of_nat k)) ].

(** Rounds [c + 1], ..., [c + n]. *)
Definition churn {V : Type} (T : type_info) (pattern : Topic)
    (h : @UserHandler V) (prio : Z) (c n : nat) : list (@RegistryOp V) :=
  flat_map (churn_round T pattern h prio) (seq (S c) n).

(** As many rounds as [size_t] has values: the registry never holds more
    than the one subscription of the round in progress. *)
Definition churning_ops : list (@RegistryOp Z) :=
  churn TradeEvent "trade.test" void_handler 0 0 (N.to_nat size_t_modulus).

(** What every subscription of [priority_ops] satisfies. *)
Definition well_made (m : loc) (sub : @Subscription Z) : Prop :=
  topicPattern sub <> "" /\
  throws_only_std (handler sub) /\
  never_null (handler sub) /\
  exists U h, handler sub = wrappedHandler U h /\ preserves_cell m h.

(** The worker after a [postAsync] and a [stop()], its wait just over. *)
Definition stopped_worker : @Worker Z :=
  {| pc := AfterWait;
     bus_of := stop (fst (postAsync TradeEvent "trade.test" 15025%Z (start basic_bus) []));
     heap_of := [TypedMessage TradeEvent 15025%Z];
     delivered := [] |}.

(** The worker with one message for ["trade.priority"] queued, its wait
    just over. *)
Definition dispatching_worker : @Worker Z :=
  {| pc := AfterWait;
     bus_of := fst (postAsync TradeEvent "trade.priority" 15025%Z (start priority_bus) []);
     heap_of := [TypedMessage TradeEvent 15025%Z];
     delivered := [] |}.

(** A subscription whose handler throws [std::runtime_error]. *)
Definition throwing_subscription : @Subscription Z :=
  {| id := 2%N; topicPattern := "trade.*";
     handler := wrappedHandler TradeEvent throwing_handler; priority := 10%Z |}.

(** The [VoidMessage] subscription of Main.cpp. *)
Definition void_subscription : @Subscription Z :=
  {| id := 2%N; topicPattern := "basic.trade";
     handler := wrappedHandler VoidMessage void_handler; priority := 0%Z |}.

(** ** What a dispatch calls *)




(** ** Notions of the further properties *)

(** Non-decreasing priority, whatever the identifiers. *)
Definition le_priority {V : Type} (a b : @Subscription V) : Prop :=
  (priority a <= priority b)%Z.

(** The subscriptions of one priority. *)
Definition has_priority {V : Type} (p : Z) (sub : @Subscription V) : bool :=
  (priority sub =? p)%Z.

(** The subscriptions that a new one of priority [p] goes behind, and those
    it goes in front of. *)
Definition not_after {V : Type} (p : Z) (sub : @Subscription V) : bool :=
  (priority sub <=? p)%Z.
Definition after {V : Type} (p : Z) (sub : @Subscription V) : bool :=
  (p <? priority sub)%Z.

(** The subscription that [subscribe] appends. *)
Definition new_subscription {V : Type} (T : type_info) (pattern : Topic)
    (h : @UserHandler V) (prio : Z) (bus : @EventBus V) : @Subscription V :=
  {| id := size_t_wrap (Z.of_N (handlerIdCounter_ bus) + 1);
     topicPattern := pattern;
     handler := wrappedHandler T h;
     priority := prio |}.

(** The completion of the worker's loop that goes with one of [post]: the
    worker keeps no results. *)
Definition without_results {V : Type} (c : @Completion V) : @Completion V :=
  match c with
  | Completed _ => Completed []
  | Propagated e => Propagated e
  | UndefinedBehaviour => UndefinedBehaviour
  end.

(** The worker with the message of one [postAsync] in its queue, its wait
    just over. *)
Definition woken_worker {V : Type} (T : type_info) (tp : Topic) (m : V)
    (bus : @EventBus V) (H : @Heap V) (d : list (@Invocation V)) : @Worker V :=
  {| pc := AfterWait;
     bus_of := fst (postAsync T tp m bus H);
     heap_of := snd (postAsync T tp m bus H);
     delivered := d |}.

(** ** The worker, one handler call at a time

    [dispatchLoop] (EventBus.cpp, lines 43-76) with every place where
    another thread can act: the queue lock is released after the [pop]
    (line 56), the registry lock is held for the copy of the matching
    subscriptions only (lines 59-66), and the handlers are called one by one
    without any lock and without another test of [running_] (lines 68-74).
    What a handler body does to the bus ([postAsync], [subscribe],
    [unsubscribe], [stop]) goes through the same locks as a call from
    another thread, and appears here as an action next to the handler's
    call. *)
Inductive WorkerPoint {V : Type} : Type :=
| PWhile         (* about to test [while (running_)] *)
| PWait          (* in [cv_.wait(lock, pred)] *)
| PLocked        (* the wait is over, the queue lock is held *)
| PSnapshot (event : MessageEvent)      (* popped, before the registry lock *)
| PCalling (handlers : list (@Subscription V)) (msg : loc)
                 (* in the loop over the copied handlers, these are left *)
| PExited        (* [dispatchLoop] has returned *)
| PTerminated    (* an exception left the thread function *)
| PUndefined.    (* undefined behaviour *)

Record Thread {V : Type} : Type := {
  point : @WorkerPoint V;
  t_bus : @EventBus V;
  t_heap : @Heap V;
  t_called : list (@Invocation V)
}.

Definition at_point {V : Type} (p : @WorkerPoint V) (t : @Thread V) : @Thread V :=
  {| point := p; t_bus := t_bus t; t_heap := t_heap t; t_called := t_called t |}.

(** One step of the worker thread; [None] when it cannot move. *)
Definition thread_step {V : Type} (t : @Thread V) : option (@Thread V) :=
  let bus := t_bus t in
  match point t with
  | PWhile => Some (at_point (if running_ bus then PWait else PExited) t)
  | PWait =>
      if negb (running_ bus) || negb (match messageQueue_ bus with [] => true | _ => false end)
      then Some (at_point PLocked t)
      else None
  | PLocked =>
      if negb (running_ bus) then Some (at_point PExited t)
      else
        match messageQueue_ bus with
        | [] => Some (at_point PUndefined t)
        | event :: q =>
            Some {| point := PSnapshot event; t_bus := dequeue bus q;
                    t_heap := t_heap t; t_called := t_called t |}
        end
  | PSnapshot event =>
      match snapshotMatching (subscriptions_ bus) (topic event) with
      | None => Some (at_point PUndefined t)
      | Some handlers => Some (at_point (PCalling handlers (message event)) t)
      end
  | PCalling [] _ => Some (at_point PWhile t)
  | PCalling (sub :: rest) msg =>
      let '(out, H') := handler sub msg (t_heap t) in
      let inv := {| inv_sub := sub; inv_heap := t_heap t; inv_outcome := out |} in
      let next :=
        match out with
        | Returns _ => PCalling rest msg
        | Throws e => if derived_from_std_exception e then PCalling rest msg
                      else PTerminated
        end in
      Some {| point := next; t_bus := bus; t_heap := H';
              t_called := t_called t ++ [inv] |}
  | PExited | PTerminated | PUndefined => None
  end.

Definition on_t_bus {V : Type} (f : @EventBus V -> @EventBus V) (t : @Thread V) : @Thread V :=
  {| point := point t; t_bus := f (t_bus t); t_heap := t_heap t;
     t_called := t_called t |}.

(** The worker thread among the other threads. *)
Definition thread_system_step {V : Type} (a : @Action V) (t : @Thread V) : option (@Thread V) :=
  match a with
  | WorkerStep => thread_step t
  | CallStop => Some (on_t_bus stop t)
  | CallPostAsync T tp m =>
      match point t with
      | PLocked => None      (* the worker holds the queue lock *)
      | _ =>
          let '(bus', H') := postAsync T tp m (t_bus t) (t_heap t) in
          Some {| point := point t; t_bus := bus'; t_heap := H';
                  t_called := t_called t |}
      end
  | CallSubscribe T pattern h prio =>
      Some (on_t_bus (fun b => snd (subscribe T pattern h prio b)) t)
  | CallUnsubscribe i => Some (on_t_bus (unsubscribe i) t)
  end.

Fixpoint thread_system_run {V : Type} (acts : list (@Action V)) (t : @Thread V)
    : option (@Thread V) :=
  match acts with
  | [] => Some t
  | a :: rest =>
      match thread_system_step a t with
      | None => None
      | Some t' => thread_system_run rest t'
      end
  end.

(** The state of the thread as a state of the machine of [dispatchLoop_step],
    and the program points that the two machines share. *)
Definition as_worker {V : Type} (p : WorkerPc) (t : @Thread V) : @Worker V :=
  {| pc := p; bus_of := t_bus t; heap_of := t_heap t; delivered := t_called t |}.

Definition point_of {V : Type} (p : WorkerPc) : @WorkerPoint V :=
  match p with
  | AtWhile => PWhile
  | AtWait => PWait
  | AfterWait => PLocked
  | Exited => PExited
  | Terminated => PTerminated
  | Undefined => PUndefined
  end.


(** ** Scenarios of the further properties *)


(** The worker with one message for ["trade.priority"] queued, its wait just
    over, as a thread. *)
Definition locked_thread : @Thread Z :=
  {| point := PLocked;
     t_bus := bus_of dispatching_worker;
     t_heap := heap_of dispatching_worker;
     t_called := [] |}.

(** A [subscribe] call that is given the empty pattern. *)
Definition empty_pattern_subscription : @Subscription Z :=
  {| id := 2%N; topicPattern := "";
     handler := wrappedHandler TradeEvent void_handler; priority := 0%Z |}.

Definition empty_pattern_bus : @EventBus Z :=
  snd (subscribe TradeEvent "" void_handler 0 basic_bus).

(** A bus whose only subscription takes [VoidMessage]. *)
Definition void_only_bus : @EventBus Z :=
  snd (subscribe VoidMessage "basic.trade" void_handler 0 EventBus_new).

(** A subscription whose handler throws an [int]. *)
Definition int_subscription : @Subscription Z :=
  {| id := 7%N; topicPattern := "trade.*";
     handler := wrappedHandler TradeEvent throwing_int_handler; priority := 200%Z |}.

(** A running worker at the head of its loop, two messages queued. *)
Definition queued_worker : @Worker Z :=
  let '(bus1, H1) := postAsync TradeEvent "trade.priority" 15025%Z (start priority_bus) [] in
  let '(bus2, H2) := postAsync TradeEvent "trade.other" 8050%Z bus1 H1 in
  {| pc := AtWhile; bus_of := bus2; heap_of := H2; delivered := [] |}.

(** * Properties *)

(** ** The topic matcher *)

(** The WildcardTopic test, and a topic shorter than the prefix. *)
Example isTopicMatch_trade_wildcard :
  isTopicMatch "trade.*" "trade.wildcard" = Some true.
Proof. reflexivity. Qed.

Example isTopicMatch_trade_specific :
  isTopicMatch "trade.specific" "trade.wildcard" = Some false.
Proof. reflexivity. Qed.

Example isTopicMatch_short_topic :
  isTopicMatch "trade.*" "tra" = Some false.
Proof. reflexivity. Qed.

Lemma back_is_last (s : string) :
  back s = match String.length s with O => None | S k => String.get k s end.
Proof.
  induction s as [|a s IH]; [reflexivity|].
  destruct s as [|b s']; [reflexivity|].
  change (back (String a (String b s'))) with (back (String b s')).
  rewrite IH. reflexivity.
Qed.

Lemma last_char_is_back (c : ascii) (s : string) :
  last_char_is c s = match back s with Some d => Ascii.eqb d c | None => false end.
Proof.
  unfold last_char_is. rewrite back_is_last.
  destruct (String.length s); reflexivity.
Qed.

Lemma back_nonempty (s : string) : s <> "" -> exists c, back s = Some c.
Proof.
  induction s as [|a s IH]; [congruence|]. intros _.
  destruct s as [|b s']; [exists a; reflexivity|].
  destruct IH as [c Hc]; [congruence|]. exists c. exact Hc.
Qed.

Lemma size_t_wrap_pred (n : nat) :
  (0 < n)%nat -> (N.of_nat n < size_t_modulus)%N ->
  N.to_nat (size_t_wrap (Z.of_nat n - 1)) = (n - 1)%nat.
Proof.
  intros Hpos Hlt. unfold size_t_wrap.
  rewrite Z.mod_small; [lia|].
  unfold size_t_modulus, size_t_bits in *. lia.
Qed.

(** X1.  On every non-empty pattern of representable length the code
    computes the three rules of section 4.3. *)
Lemma isTopicMatch_nonempty (pattern topic : Topic) :
  pattern <> "" ->
  (N.of_nat (String.length pattern) < size_t_modulus)%N ->
  isTopicMatch pattern topic = Some (match_spec pattern topic).
Proof.
  intros Hne Hlen. unfold isTopicMatch, match_spec.
  destruct (String.eqb pattern "*") eqn:Hstar; [reflexivity|].
  rewrite last_char_is_back.
  destruct (back_nonempty pattern Hne) as [c Hc]. rewrite Hc.
  assert (Hpos : (0 < String.length pattern)%nat).
  { destruct pattern; [congruence | simpl; lia]. }
  rewrite (size_t_wrap_pred _ Hpos Hlen).
  unfold compare_is_0, substr.
  destruct (Ascii.eqb c "*"%char); simpl; [|reflexivity].
  destruct (String.eqb (substring 0 (String.length pattern - 1) topic)
                       (substring 0 (String.length pattern - 1) pattern)) eqn:Hpre;
    [reflexivity|].
  f_equal. apply String.eqb_neq. intros ->.
  rewrite String.eqb_refl in Hpre. discriminate.
Qed.

Lemma isTopicMatch_nonempty_witness :
  isTopicMatch "trade.*" "trade.anything" = Some (match_spec "trade.*" "trade.anything").
Proof. apply isTopicMatch_nonempty; [discriminate | vm_compute; reflexivity]. Defined.

(** C2.  The code and the three rules of the specification part on the empty
    pattern: the rules give the exact match (true on the empty topic), the
    code calls [back()] on the empty string, which is undefined. *)
Theorem isTopicMatch_departs_from_rules_on_empty_pattern :
  isTopicMatch "" "" = None /\ match_spec "" "" = true /\
  isTopicMatch "" "trade" = None /\ match_spec "" "trade" = false.
Proof. repeat split; reflexivity. Qed.

(** C4.  [isTopicMatch] is not defined on the empty pattern, whatever the
    topic: the pattern is not ["*"], and the next test is [pattern.back()]. *)
Theorem isTopicMatch_empty_pattern_undefined :
  forall tp : Topic, isTopicMatch "" tp = None.
Proof. intros tp. reflexivity. Qed.

Section EventBusProperties.

Context {V : Type}.
Implicit Types (H : @Heap V) (bus : @EventBus V) (sub : @Subscription V).

(** ** Response capsules *)

(** C8.  [get] of a capsule whose [valid_] is false throws
    [std::runtime_error("Invalid response")], and does not return the
    default-constructed [data_]; [get] of a valid capsule returns the stored
    value; [isValid] returns the flag and has no throwing path. *)
Theorem TypedResponse_get_isValid :
  forall (r : @TypedResponse V) (v : TypedResponseVoid) (d x : V) (T : type_info),
    TypedResponse_get r
      = (if valid_ r then Return (data_ r) else Throw InvalidResponse) /\
    TypedResponseVoid_get v
      = (if void_valid_ v then Return tt else Throw InvalidResponse) /\
    TypedResponse_get (TypedResponse_default d) = Throw InvalidResponse /\
    TypedResponse_get (TypedResponse_of x) = Return x /\
    TypedResponseVoid_get (TypedResponseVoid_new false) = Throw InvalidResponse /\
    TypedResponseVoid_get TypedResponseVoid_default = Return tt /\
    TypedResponse_isValid r = Return (valid_ r) /\
    TypedResponseVoid_isValid v = Return (void_valid_ v) /\
    isValid (ResponseTyped T r) = valid_ r /\
    isValid (@ResponseVoid V v) = void_valid_ v.
Proof.
  intros r v d x T. unfold TypedResponse_get, TypedResponseVoid_get, InvalidResponse.
  destruct r as [dr [|]], v as [[|]]; repeat split; reflexivity.
Qed.

(** ** The handler adapter *)

Lemma dynamic_pointer_cast_envelope (T U : type_info) (msg : loc) H (d : V) :
  H !! msg = Some (TypedMessage U d) ->
  dynamic_pointer_cast T msg H = if String.eqb U T then Some d else None.
Proof. intros Hm. unfold dynamic_pointer_cast. rewrite Hm. reflexivity. Qed.

(** C6.  Called on an envelope of type [U], the adapter of a [subscribe<T>]
    calls the caller's handler on a new [T] holding the envelope's value when
    [U = T]; otherwise it returns a [TypedResponse<void>] capsule, the store
    is unchanged and the result does not depend on the caller's handler, and
    both invocation loops go on with the remaining handlers. *)
Theorem wrappedHandler_type_check :
  forall (T U : type_info) (h : UserHandler) (msg : loc) H (d : V)
         sub (rest : list Subscription) (results : list Response),
    H !! msg = Some (TypedMessage U d) ->
    handler sub = wrappedHandler T h ->
    (U = T ->
       wrappedHandler T h msg H = h (List.length H) (H ++ [Payload T d])) /\
    (U <> T ->
       let void := @ResponseVoid V TypedResponseVoid_default in
       let inv := {| inv_sub := sub; inv_heap := H;
                     inv_outcome := Returns (Some void) |} in
       wrappedHandler T h msg H = (Returns (Some void), H) /\
       is_void_capsule void = true /\
       (forall h' : UserHandler,
           wrappedHandler T h' msg H = wrappedHandler T h msg H) /\
       post_invoke (sub :: rest) msg H results
         = record_call inv (post_invoke rest msg H (results ++ [void])) /\
       dispatch_invoke (sub :: rest) msg H
         = record_call inv (dispatch_invoke rest msg H)).
Proof.
  intros T U h msg H d sub rest results Hm Hh. split.
  - intros ->. unfold wrappedHandler.
    rewrite (dynamic_pointer_cast_envelope T T msg H d Hm), String.eqb_refl.
    reflexivity.
  - intros Hne.
    assert (Hcast : forall g : UserHandler,
               wrappedHandler T g msg H
               = (Returns (Some (ResponseVoid TypedResponseVoid_default)), H)).
    { intros g. unfold wrappedHandler.
      rewrite (dynamic_pointer_cast_envelope T U msg H d Hm).
      apply String.eqb_neq in Hne. rewrite Hne. reflexivity. }
    cbv zeta. repeat split.
    + apply Hcast.
    + intros h'. rewrite !Hcast. reflexivity.
    + simpl. rewrite Hh, Hcast. reflexivity.
    + simpl. rewrite Hh, Hcast. reflexivity.
Qed.

(** ** The registry *)

Lemma stable_insert_Permutation sub (l : list Subscription) :
  Permutation (stable_insert sub l) (sub :: l).
Proof.
  induction l as [|y l IH]; simpl; [reflexivity|].
  destruct (Subscription_lt y sub); [|reflexivity].
  rewrite IH. apply perm_swap.
Qed.

Lemma stable_sort_Permutation (l : list (@Subscription V)) :
  Permutation (stable_sort l) l.
Proof.
  induction l as [|x l IH]; simpl; [reflexivity|].
  rewrite stable_insert_Permutation. constructor. exact IH.
Qed.

Lemma registry_order_tie (a b : @Subscription V) : registry_order a b -> tie_order a b.
Proof. unfold registry_order, tie_order. intros [Hlt | [_ Hid]] Heq; [lia | exact Hid]. Qed.

Lemma stable_insert_sorted sub (l : list Subscription) :
  StronglySorted registry_order l ->
  List.Forall (tie_order sub) l ->
  StronglySorted registry_order (stable_insert sub l).
Proof.
  induction l as [|y l IH]; intros Hs Ht; simpl.
  - constructor; constructor.
  - apply StronglySorted_inv in Hs as [Hs Hy].
    pose proof (Forall_inv Ht) as Hty. pose proof (Forall_inv_tail Ht) as Htl.
    unfold Subscription_lt. destruct (Z.ltb_spec (priority y) (priority sub)) as [Hlt | Hge].
    + constructor; [apply IH; assumption|].
      apply List.Forall_forall. intros z Hz.
      apply (Permutation_in _ (stable_insert_Permutation sub l)) in Hz.
      destruct Hz as [<- | Hz]; [left; exact Hlt|].
      rewrite List.Forall_forall in Hy. apply Hy, Hz.
    + constructor; [constructor; assumption|].
      assert (Hsy : registry_order sub y).
      { unfold registry_order, tie_order in *.
        destruct (Z.eq_dec (priority sub) (priority y)) as [He | Hn];
          [right; split; [exact He | apply Hty, He] | left; lia]. }
      constructor; [exact Hsy|].
      apply List.Forall_forall. intros z Hz.
      rewrite List.Forall_forall in Hy, Htl.
      specialize (Hy z Hz). specialize (Htl z Hz).
      unfold registry_order, tie_order in *.
      destruct (Z.eq_dec (priority sub) (priority z)) as [He | Hn];
        [right; split; [exact He | apply Htl, He] | left; lia].
Qed.

Lemma stable_sort_sorted (l : list (@Subscription V)) :
  StronglySorted tie_order l -> StronglySorted registry_order (stable_sort l).
Proof.
  induction l as [|x l IH]; intros Hs; simpl; [constructor|].
  apply StronglySorted_inv in Hs as [Hs Hx].
  apply stable_insert_sorted; [apply IH, Hs|].
  apply List.Forall_forall. intros z Hz.
  apply (Permutation_in _ (stable_sort_Permutation l)) in Hz.
  rewrite List.Forall_forall in Hx. apply Hx, Hz.
Qed.

Lemma StronglySorted_snoc {A} (R : A -> A -> Prop) (l : list A) (x : A) :
  StronglySorted R l -> List.Forall (fun y => R y x) l -> StronglySorted R (l ++ [x]).
Proof.
  induction l as [|a l IH]; intros Hs Hx; simpl.
  - constructor; constructor.
  - apply StronglySorted_inv in Hs as [Hs Ha].
    constructor; [apply IH; [exact Hs | exact (Forall_inv_tail Hx)]|].
    apply List.Forall_app. split; [exact Ha|].
    constructor; [exact (Forall_inv Hx) | constructor].
Qed.

Lemma StronglySorted_weaken {A} (R S : A -> A -> Prop) (l : list A) :
  (forall a b, R a b -> S a b) -> StronglySorted R l -> StronglySorted S l.
Proof.
  intros HRS. induction 1 as [|a l Hs IH Ha]; constructor; [exact IH|].
  eapply List.Forall_impl; [|exact Ha]. intros b. apply HRS.
Qed.

Lemma remove_if_filter (pred : @Subscription V -> bool) (l : list Subscription) :
  remove_if pred l = List.filter (fun s => negb (pred s)) l.
Proof.
  induction l as [|x l IH]; simpl; [reflexivity|].
  destruct (pred x); simpl; rewrite IH; reflexivity.
Qed.

Lemma remove_if_In (pred : @Subscription V -> bool) (l : list Subscription) sub :
  In sub (remove_if pred l) <-> In sub l /\ pred sub = false.
Proof.
  rewrite remove_if_filter, filter_In. rewrite negb_true_iff. reflexivity.
Qed.

Lemma remove_if_sorted (R : @Subscription V -> Subscription -> Prop) pred l :
  StronglySorted R l -> StronglySorted R (remove_if pred l).
Proof.
  induction 1 as [|a l Hs IH Ha]; simpl; [constructor|].
  destruct (pred a); [exact IH|].
  constructor; [exact IH|].
  apply List.Forall_forall. intros z Hz. apply remove_if_In in Hz as [Hz _].
  rewrite List.Forall_forall in Ha. apply Ha, Hz.
Qed.

Lemma remove_if_NoDup_ids pred (l : list (@Subscription V)) :
  List.NoDup (map id l) -> List.NoDup (map id (remove_if pred l)).
Proof.
  induction l as [|a l IH]; simpl; intros Hnd; [constructor|].
  apply NoDup_cons_iff in Hnd as [Hnin Hnd].
  destruct (pred a); [apply IH, Hnd|].
  simpl. constructor; [|apply IH, Hnd].
  intros Hin. apply Hnin. apply in_map_iff in Hin as [z [Hz Hin]].
  apply remove_if_In in Hin as [Hin _]. apply in_map_iff. exists z. split; assumption.
Qed.

Lemma remove_if_none (pred : @Subscription V -> bool) (l : list Subscription) :
  (forall sub, In sub l -> pred sub = false) -> remove_if pred l = l.
Proof.
  induction l as [|a l IH]; simpl; intros Hp; [reflexivity|].
  rewrite (Hp a (or_introl eq_refl)). f_equal. apply IH.
  intros sub Hs. apply Hp. right. exact Hs.
Qed.

Lemma size_t_wrap_succ (c : N) :
  (c + 1 < size_t_modulus)%N -> size_t_wrap (Z.of_N c + 1) = (c + 1)%N.
Proof.
  intros Hlt. unfold size_t_wrap. rewrite Z.mod_small; lia.
Qed.

Lemma subscribe_inv (T : type_info) (pattern : Topic) (h : UserHandler) (prio : Z) bus :
  registry_inv bus ->
  (handlerIdCounter_ bus + 1 < size_t_modulus)%N ->
  fst (subscribe T pattern h prio bus) = (handlerIdCounter_ bus + 1)%N /\
  handlerIdCounter_ (snd (subscribe T pattern h prio bus)) = (handlerIdCounter_ bus + 1)%N /\
  registry_inv (snd (subscribe T pattern h prio bus)) /\
  (forall sub, In sub (subscriptions_ (snd (subscribe T pattern h prio bus))) ->
               In sub (subscriptions_ bus) \/ id sub = (handlerIdCounter_ bus + 1)%N).
Proof.
  intros (Hsorted & Hnd & Hrange) Hlt.
  unfold subscribe. rewrite (size_t_wrap_succ _ Hlt). simpl.
  set (new := {| id := (handlerIdCounter_ bus + 1)%N; topicPattern := pattern;
                 handler := wrappedHandler T h; priority := prio |}).
  pose proof (stable_sort_Permutation (subscriptions_ bus ++ [new])) as Hperm.
  split; [reflexivity|]. split; [reflexivity|]. split; [split; [|split]|].
  - apply stable_sort_sorted. apply StronglySorted_snoc.
    + eapply StronglySorted_weaken; [apply registry_order_tie | exact Hsorted].
    + eapply List.Forall_impl; [|exact Hrange]. intros s Hs _. unfold new. simpl in *. lia.
  - eapply Permutation_NoDup; [symmetry; apply Permutation_map, Hperm|].
    rewrite map_app. simpl.
    apply List.NoDup_app; [exact Hnd | constructor; [intros []|constructor] |].
    intros i Hi [<- | []]. apply in_map_iff in Hi as [s [Hs Hin]].
    rewrite List.Forall_forall in Hrange. specialize (Hrange s Hin). simpl in Hrange. lia.
  - apply List.Forall_forall. intros s Hs.
    apply (Permutation_in _ Hperm) in Hs. apply in_app_iff in Hs as [Hs | [<- | []]].
    + rewrite List.Forall_forall in Hrange. specialize (Hrange s Hs). simpl in *. lia.
    + unfold new. simpl. lia.
  - intros s Hs. apply (Permutation_in _ Hperm) in Hs.
    apply in_app_iff in Hs as [Hs | [<- | []]]; [left; exact Hs | right; reflexivity].
Qed.

Lemma unsubscribe_inv (i : HandlerId) bus :
  registry_inv bus -> registry_inv (unsubscribe i bus).
Proof.
  intros (Hsorted & Hnd & Hrange). unfold registry_inv, unsubscribe. simpl.
  split; [apply remove_if_sorted, Hsorted|].
  split; [apply remove_if_NoDup_ids, Hnd|].
  apply List.Forall_forall. intros s Hs. apply remove_if_In in Hs as [Hs _].
  rewrite List.Forall_forall in Hrange. apply Hrange, Hs.
Qed.

Lemma EventBus_new_inv : registry_inv (@EventBus_new V).
Proof. repeat split; simpl; constructor. Qed.

Lemma run_ops_inv (ops : list RegistryOp) :
  forall bus ids bus',
    registry_inv bus ->
    (handlerIdCounter_ bus + N.of_nat (count_subscribes ops) < size_t_modulus)%N ->
    run_ops ops bus = (ids, bus') ->
    registry_inv bus' /\
    StronglySorted N.lt (handlerIdCounter_ bus :: ids) /\
    (forall sub, In sub (subscriptions_ bus') ->
                 In sub (subscriptions_ bus) \/ In (id sub) ids).
Proof.
  induction ops as [|op ops IH]; intros bus ids bus' Hinv Hcount Hrun.
  - simpl in Hrun. injection Hrun as <- <-.
    split; [exact Hinv|]. split; [constructor; constructor|]. intros sub Hs. left. exact Hs.
  - destruct op as [T pattern h prio | i].
    + change (count_subscribes (OpSubscribe T pattern h prio :: ops))
        with (S (count_subscribes ops)) in Hcount.
      assert (Hstep : (handlerIdCounter_ bus + 1 < size_t_modulus)%N) by lia.
      destruct (subscribe_inv T pattern h prio bus Hinv Hstep)
        as (Hid & Hctr & Hinv1 & Hsubs).
      cbn [run_ops] in Hrun.
      destruct (subscribe T pattern h prio bus) as [i bus1] eqn:Hsub.
      simpl in Hid, Hctr, Hinv1, Hsubs.
      destruct (run_ops ops bus1) as [ids1 bus2] eqn:Hrest.
      injection Hrun as <- <-.
      destruct (IH bus1 ids1 bus2 Hinv1 ltac:(lia) Hrest) as (Hinv2 & Hsorted & Hfrom).
      split; [exact Hinv2|]. split.
      * rewrite Hctr in Hsorted. rewrite Hid.
        constructor; [exact Hsorted|].
        apply StronglySorted_inv in Hsorted as [_ Hall].
        constructor; [lia|].
        eapply List.Forall_impl; [|exact Hall]. intros a Ha. simpl in Ha. lia.
      * intros sub Hs. destruct (Hfrom sub Hs) as [Hin | Hin].
        -- destruct (Hsubs sub Hin) as [Hold | Hnew];
             [left; exact Hold | right; left; congruence].
        -- right. right. exact Hin.
    + change (count_subscribes (OpUnsubscribe i :: ops))
        with (count_subscribes ops) in Hcount.
      cbn [run_ops] in Hrun.
      destruct (IH (unsubscribe i bus) ids bus' (unsubscribe_inv i bus Hinv) Hcount Hrun)
        as (Hinv2 & Hsorted & Hfrom).
      split; [exact Hinv2|]. split; [exact Hsorted|].
      intros sub Hs. destruct (Hfrom sub Hs) as [Hin | Hin]; [left | right; exact Hin].
      simpl in Hin. apply remove_if_In in Hin as [Hin _]. exact Hin.
Qed.

(** C7, as the code has it.  After every sequence of [subscribe] and
    [unsubscribe] calls on a new bus with fewer than [2 ^ 64] calls of
    [subscribe]: the identifiers returned are above 0 and strictly
    increasing, the live subscriptions have pairwise distinct identifiers,
    each of them one that was returned, and the registry is ordered by
    priority, and by identifier (so by registration) among equal
    priorities. *)
Theorem registry_invariant_until_counter_wraps :
  forall (ops : list (@RegistryOp V)) (ids : list HandlerId) bus,
    (N.of_nat (count_subscribes ops) < size_t_modulus)%N ->
    run_ops ops EventBus_new = (ids, bus) ->
    StronglySorted N.lt (0%N :: ids) /\
    List.NoDup (map id (subscriptions_ bus)) /\
    (forall sub, In sub (subscriptions_ bus) -> In (id sub) ids) /\
    StronglySorted registry_order (subscriptions_ bus).
Proof.
  intros ops ids bus Hcount Hrun.
  destruct (run_ops_inv ops EventBus_new ids bus EventBus_new_inv
              ltac:(simpl; lia) Hrun) as ((Hsorted & Hnd & _) & Hids & Hfrom).
  split; [exact Hids|]. split; [exact Hnd|]. split; [|exact Hsorted].
  intros sub Hs. destruct (Hfrom sub Hs) as [[] | Hin]. exact Hin.
Qed.

Lemma size_t_wrap_wrap_succ (z : Z) :
  size_t_wrap (Z.of_N (size_t_wrap z) + 1) = size_t_wrap (z + 1).
Proof.
  unfold size_t_wrap.
  assert (Hpos : (0 < Z.of_N size_t_modulus)%Z) by reflexivity.
  rewrite Z2N.id by (apply Z.mod_pos_bound; exact Hpos).
  rewrite Zplus_mod_idemp_l. reflexivity.
Qed.

(** A round on an empty registry leaves it empty and advances the counter
    by one, modulo [2 ^ 64]; so do any number of rounds, and between two
    operations the registry holds one subscription at most. *)
Lemma run_ops_churn (T : type_info) (pattern : Topic) (h : UserHandler)
    (prio : Z) (n : nat) :
  forall (c : nat) bus,
    subscriptions_ bus = [] ->
    handlerIdCounter_ bus = size_t_wrap (Z.of_nat c) ->
    fst (run_ops (churn T pattern h prio c n) bus)
      = map (fun k => size_t_wrap (Z.of_nat k)) (seq (S c) n) /\
    subscriptions_ (snd (run_ops (churn T pattern h prio c n) bus)) = [] /\
    (forall j, (List.length (subscriptions_
                  (snd (run_ops (firstn j (churn T pattern h prio c n)) bus))) <= 1)%nat).
Proof.
  induction n as [|n IH]; intros c bus Hsubs Hctr.
  - unfold churn. cbn [seq flat_map run_ops fst snd map].
    split; [reflexivity|]. split; [exact Hsubs|].
    intros j. rewrite firstn_nil. cbn [run_ops snd]. rewrite Hsubs. simpl. lia.
  - assert (Hid : size_t_wrap (Z.of_N (handlerIdCounter_ bus) + 1)
                  = size_t_wrap (Z.of_nat (S c))).
    { rewrite Hctr, size_t_wrap_wrap_succ, Nat2Z.inj_succ. reflexivity. }
    set (bus1 := snd (subscribe T pattern h prio bus)).
    set (bus2 := unsubscribe (size_t_wrap (Z.of_nat (S c))) bus1).
    assert (Hsubs1 : List.length (subscriptions_ bus1) = 1%nat)
      by (unfold bus1, subscribe; cbn [snd subscriptions_]; rewrite Hsubs; reflexivity).
    assert (Hsubs2 : subscriptions_ bus2 = []).
    { unfold bus2, bus1, unsubscribe, subscribe. cbn [snd subscriptions_].
      rewrite Hsubs. cbn [app stable_sort stable_insert remove_if id].
      rewrite Hid, N.eqb_refl. reflexivity. }
    assert (Hctr2 : handlerIdCounter_ bus2 = size_t_wrap (Z.of_nat (S c)))
      by (unfold bus2, bus1, unsubscribe, subscribe; cbn [snd handlerIdCounter_]; exact Hid).
    destruct (IH (S c) bus2 Hsubs2 Hctr2) as (Hids & Hend & Hsmall).
    assert (Hrounds : churn T pattern h prio c (S n)
                      = OpSubscribe T pattern h prio
                        :: OpUnsubscribe (size_t_wrap (Z.of_nat (S c)))
                        :: churn T pattern h prio (S c) n) by reflexivity.
    rewrite Hrounds.
    assert (Hrun : forall ops,
               run_ops (OpSubscribe T pattern h prio
                        :: OpUnsubscribe (size_t_wrap (Z.of_nat (S c))) :: ops) bus
               = (size_t_wrap (Z.of_nat (S c)) :: fst (run_ops ops bus2),
                  snd (run_ops ops bus2))).
    { intros ops. cbn [run_ops]. unfold bus2, bus1.
      unfold subscribe at 1. cbv zeta. rewrite Hid.
      unfold subscribe. cbn [snd]. rewrite Hid.
      destruct (run_ops ops _) as [ids b]. reflexivity. }
    split; [|split].
    + rewrite Hrun. cbn [fst seq map]. rewrite Hids. reflexivity.
    + rewrite Hrun. cbn [snd]. exact Hend.
    + intros [|[|j]].
      * cbn [firstn run_ops snd]. rewrite Hsubs. simpl. lia.
      * cbn [firstn run_ops]. unfold subscribe. cbn [snd subscriptions_].
        rewrite Hsubs. cbn [app stable_sort stable_insert List.length]. lia.
      * cbn [firstn]. rewrite Hrun. cbn [snd]. apply Hsmall.
Qed.

(** ** Unsubscription and dispatch *)

Lemma snapshotMatching_filter (subs : list (@Subscription V)) (tp : Topic) handlers :
  snapshotMatching subs tp = Some handlers ->
  handlers = List.filter (matches tp) subs.
Proof.
  revert handlers. induction subs as [|sub subs IH]; intros handlers Hs; simpl in Hs.
  - injection Hs as <-. reflexivity.
  - simpl. unfold matches at 1.
    destruct (isTopicMatch (topicPattern sub) tp) as [b|]; [|discriminate].
    destruct (snapshotMatching subs tp) as [hs|]; [|discriminate].
    injection Hs as <-. rewrite <- (IH hs eq_refl). reflexivity.
Qed.

Lemma snapshotMatching_defined (subs : list (@Subscription V)) (tp : Topic) :
  List.Forall (fun sub => isTopicMatch (topicPattern sub) tp <> None) subs ->
  snapshotMatching subs tp = Some (List.filter (matches tp) subs).
Proof.
  induction 1 as [|sub subs Hsub _ IH]; simpl; [reflexivity|].
  unfold matches at 1.
  destruct (isTopicMatch (topicPattern sub) tp) as [b|]; [|congruence].
  rewrite IH. reflexivity.
Qed.

Lemma post_invoke_trace_subs (handlers : list (@Subscription V)) :
  forall msg H results,
    List.Forall (fun inv => In (inv_sub inv) handlers)
                (trace (post_invoke handlers msg H results)).
Proof.
  induction handlers as [|sub rest IH]; intros msg H results; simpl; [constructor|].
  assert (Hrec : forall H' res inv, inv_sub inv = sub ->
            List.Forall (fun inv => sub = inv_sub inv \/ In (inv_sub inv) rest)
                        (trace (record_call inv (post_invoke rest msg H' res)))).
  { intros H' res inv Hinv. simpl. constructor; [left; symmetry; exact Hinv|].
    eapply List.Forall_impl; [|apply IH]. intros a Ha. right. exact Ha. }
  destruct (handler sub msg H) as [[[r|]|e] H'].
  - apply Hrec. reflexivity.
  - simpl. constructor; [left; reflexivity | constructor].
  - destruct (derived_from_std_exception e).
    + apply Hrec. reflexivity.
    + simpl. constructor; [left; reflexivity | constructor].
Qed.

Lemma dispatch_invoke_trace_subs (handlers : list (@Subscription V)) :
  forall msg H,
    List.Forall (fun inv => In (inv_sub inv) handlers)
                (trace (dispatch_invoke handlers msg H)).
Proof.
  induction handlers as [|sub rest IH]; intros msg H; simpl; [constructor|].
  assert (Hrec : forall H' inv, inv_sub inv = sub ->
            List.Forall (fun inv => sub = inv_sub inv \/ In (inv_sub inv) rest)
                        (trace (record_call inv (dispatch_invoke rest msg H')))).
  { intros H' inv Hinv. simpl. constructor; [left; symmetry; exact Hinv|].
    eapply List.Forall_impl; [|apply IH]. intros a Ha. right. exact Ha. }
  destruct (handler sub msg H) as [[r|e] H'].
  - apply Hrec. reflexivity.
  - destruct (derived_from_std_exception e).
    + apply Hrec. reflexivity.
    + simpl. constructor; [left; reflexivity | constructor].
Qed.

Lemma post_trace_subs (T : type_info) (tp : Topic) (m : V) bus H :
  List.Forall (fun inv => In (inv_sub inv) (subscriptions_ bus) /\
                          matches tp (inv_sub inv) = true)
              (trace (post T tp m bus H)).
Proof.
  unfold post. simpl.
  destruct (snapshotMatching (subscriptions_ bus) tp) as [handlers|] eqn:Hsnap;
    [|constructor].
  apply snapshotMatching_filter in Hsnap. subst handlers.
  eapply List.Forall_impl; [|apply post_invoke_trace_subs].
  intros inv Hin. apply filter_In in Hin. exact Hin.
Qed.

Lemma unsubscribe_absent (i : HandlerId) bus : absent i (unsubscribe i bus).
Proof.
  intros sub Hs. simpl in Hs. apply remove_if_In in Hs as [_ Hne].
  apply N.eqb_neq. exact Hne.
Qed.

Lemma dispatchLoop_step_registry (w w' : @Worker V) :
  dispatchLoop_step w = Some w' ->
  subscriptions_ (bus_of w') = subscriptions_ (bus_of w) /\
  exists tr,
    delivered w' = delivered w ++ tr /\
    List.Forall (fun inv => In (inv_sub inv) (subscriptions_ (bus_of w))) tr.
Proof.
  unfold dispatchLoop_step. intros Hstep.
  assert (Hsame : forall p, subscriptions_ (bus_of (at_pc p w)) = subscriptions_ (bus_of w) /\
            exists tr, delivered (at_pc p w) = delivered w ++ tr /\
              List.Forall (fun inv => In (inv_sub inv) (subscriptions_ (bus_of w))) tr).
  { intros p. split; [reflexivity|]. exists []. split; [symmetry; apply app_nil_r | constructor]. }
  destruct (pc w).
  - injection Hstep as <-. apply Hsame.
  - destruct (negb (running_ (bus_of w)) || _); [|discriminate].
    injection Hstep as <-. apply Hsame.
  - destruct (negb (running_ (bus_of w))); [injection Hstep as <-; apply Hsame|].
    destruct (messageQueue_ (bus_of w)) as [|event q]; [injection Hstep as <-; apply Hsame|].
    simpl in Hstep.
    destruct (snapshotMatching (subscriptions_ (bus_of w)) (topic event)) as [handlers|] eqn:Hsnap.
    + injection Hstep as <-. simpl. split; [reflexivity|].
      eexists. split; [reflexivity|].
      apply snapshotMatching_filter in Hsnap. subst handlers.
      eapply List.Forall_impl; [|apply dispatch_invoke_trace_subs].
      intros inv Hin. apply filter_In in Hin as [Hin _]. exact Hin.
    + injection Hstep as <-. simpl. split; [reflexivity|].
      exists []. split; [symmetry; apply app_nil_r | constructor].
  - discriminate.
  - discriminate.
  - discriminate.
Qed.

(** C9.  [unsubscribe(i)] keeps exactly the subscriptions whose identifier is
    not [i], in their order, and nothing else of the bus changes; it leaves
    the bus as it is when no subscription has the identifier; afterwards no
    subscription has it, and on a registry without it neither [post] nor a
    step of the worker calls a handler of that identifier, and [postAsync]
    and the worker's steps leave the registry without it. *)
Theorem unsubscribe_removes_exactly :
  forall (i : HandlerId) bus,
    subscriptions_ (unsubscribe i bus)
      = List.filter (fun sub => negb (N.eqb (id sub) i)) (subscriptions_ bus) /\
    messageQueue_ (unsubscribe i bus) = messageQueue_ bus /\
    running_ (unsubscribe i bus) = running_ bus /\
    handlerIdCounter_ (unsubscribe i bus) = handlerIdCounter_ bus /\
    (absent i bus -> unsubscribe i bus = bus) /\
    absent i (unsubscribe i bus) /\
    (forall bus', absent i bus' ->
       (forall (T : type_info) (tp : Topic) (m : V) H,
           List.Forall (fun inv => id (inv_sub inv) <> i) (trace (post T tp m bus' H)) /\
           absent i (fst (postAsync T tp m bus' H))) /\
       (forall w w' : Worker,
           bus_of w = bus' -> dispatchLoop_step w = Some w' ->
           absent i (bus_of w') /\
           exists tr, delivered w' = delivered w ++ tr /\
                      List.Forall (fun inv => id (inv_sub inv) <> i) tr)).
Proof.
  intros i bus.
  split; [apply remove_if_filter|]. do 3 (split; [reflexivity|]).
  split; [|split; [apply unsubscribe_absent|]].
  - intros Habs. destruct bus as [subs q r c]. unfold unsubscribe. simpl. f_equal.
    apply remove_if_none. intros sub Hs. apply N.eqb_neq. apply (Habs sub Hs).
  - intros bus' Habs. split.
    + intros T tp m H. split; [|exact Habs].
      eapply List.Forall_impl; [|apply post_trace_subs].
      intros inv [Hin _]. apply (Habs _ Hin).
    + intros w w' Hbus Hstep. subst bus'.
      destruct (dispatchLoop_step_registry w w' Hstep) as (Hsubs & tr & Hdel & Htr).
      split.
      * intros sub Hs. rewrite Hsubs in Hs. apply (Habs sub Hs).
      * exists tr. split; [exact Hdel|].
        eapply List.Forall_impl; [|exact Htr]. intros inv Hin. apply (Habs _ Hin).
Qed.

(** ** Synchronous dispatch *)

Lemma isTopicMatch_defined (pattern tp : Topic) :
  pattern <> "" -> isTopicMatch pattern tp <> None.
Proof.
  intros Hne. unfold isTopicMatch.
  destruct (String.eqb pattern "*"); [discriminate|].
  destruct (back_nonempty pattern Hne) as [c ->].
  destruct (_ && _); discriminate.
Qed.

Lemma flat_map_contribution_cons (inv : @Invocation V) (tr : list Invocation) :
  flat_map contribution (inv :: tr) = contribution inv ++ flat_map contribution tr.
Proof. reflexivity. Qed.

(** When no handler returns null or throws past the [catch], the loop of
    [post] calls every handler of its list, in order, and returns what the
    valid capsules contribute. *)
Lemma post_invoke_completes (handlers : list (@Subscription V)) :
  forall msg H results,
    List.Forall (fun sub => throws_only_std (handler sub) /\ never_null (handler sub)) handlers ->
    let r := post_invoke handlers msg H results in
    completion r = Completed (results ++ flat_map contribution (trace r)) /\
    map inv_sub (trace r) = handlers /\
    List.Forall (fun inv => inv_outcome inv
                            = fst (handler (inv_sub inv) msg (inv_heap inv))) (trace r).
Proof.
  induction handlers as [|sub rest IH]; intros msg H results Hall; simpl.
  - rewrite app_nil_r. repeat split. constructor.
  - pose proof (Forall_inv Hall) as [Hstd Hnn]. pose proof (Forall_inv_tail Hall) as Hrest.
    specialize (Hstd msg H). specialize (Hnn msg H).
    destruct (handler sub msg H) as [out H'] eqn:Hcall. simpl in Hstd, Hnn.
    destruct out as [[r|]|e]; [| congruence |].
    + destruct (IH msg H' (if isValid r then results ++ [r] else results) Hrest)
        as (Hc & Hm & Ho).
      simpl. rewrite Hc. unfold contribution at 2. simpl.
      split; [|split].
      * destruct (isValid r); simpl; [rewrite <- app_assoc|]; reflexivity.
      * rewrite Hm. reflexivity.
      * constructor; [simpl; rewrite Hcall; reflexivity | exact Ho].
    + rewrite (Hstd e eq_refl).
      destruct (IH msg H' results Hrest) as (Hc & Hm & Ho).
      simpl. rewrite Hc. split; [reflexivity|]. split; [rewrite Hm; reflexivity|].
      constructor; [simpl; rewrite Hcall; reflexivity | exact Ho].
Qed.

Lemma dispatch_invoke_completes (handlers : list (@Subscription V)) :
  forall msg H,
    List.Forall (fun sub => throws_only_std (handler sub)) handlers ->
    let r := dispatch_invoke handlers msg H in
    completion r = Completed [] /\
    map inv_sub (trace r) = handlers.
Proof.
  induction handlers as [|sub rest IH]; intros msg H Hall; simpl; [split; reflexivity|].
  pose proof (Forall_inv Hall) as Hstd. pose proof (Forall_inv_tail Hall) as Hrest.
  specialize (Hstd msg H).
  destruct (handler sub msg H) as [out H'] eqn:Hcall. simpl in Hstd.
  destruct (IH msg H' Hrest) as (Hc & Hm).
  destruct out as [r|e].
  - simpl. rewrite Hc, Hm. split; reflexivity.
  - rewrite (Hstd e eq_refl). simpl. rewrite Hc, Hm. split; reflexivity.
Qed.

Lemma filter_sorted {A} (R : A -> A -> Prop) (f : A -> bool) (l : list A) :
  StronglySorted R l -> StronglySorted R (List.filter f l).
Proof.
  induction 1 as [|a l Hs IH Ha]; simpl; [constructor|].
  destruct (f a); [|exact IH].
  constructor; [exact IH|].
  apply List.Forall_forall. intros z Hz. apply filter_In in Hz as [Hz _].
  rewrite List.Forall_forall in Ha. apply Ha, Hz.
Qed.

(** C1, as the code has it.  On a registry in registry order whose patterns
    are not empty and whose handlers neither return null nor throw anything
    not derived from [std::exception], [post] returns; it has called exactly
    the matching subscriptions, in registry order (by priority, then by
    registration), and its results are, in that order, the capsules returned
    with [isValid()] true.  A capsule with [isValid()] false adds nothing; a
    [TypedResponse<void>] capsule is kept or dropped by its flag like any
    other. *)
Theorem post_returns_valid_responses_in_registry_order :
  forall (T : type_info) (tp : Topic) (m : V) bus H,
    StronglySorted registry_order (subscriptions_ bus) ->
    List.Forall (fun sub => topicPattern sub <> "" /\
                            throws_only_std (handler sub) /\
                            never_null (handler sub)) (subscriptions_ bus) ->
    let r := post T tp m bus H in
    completion r = Completed (flat_map contribution (trace r)) /\
    map inv_sub (trace r) = List.filter (matches tp) (subscriptions_ bus) /\
    StronglySorted registry_order (map inv_sub (trace r)) /\
    List.Forall (fun inv => inv_outcome inv
                   = fst (handler (inv_sub inv) (List.length H) (inv_heap inv))) (trace r) /\
    (forall inv : @Invocation V,
        contribution inv
                 = match inv_outcome inv with
                   | Returns (Some c) => if isValid c then [c] else []
                   | _ => []
                   end).
Proof.
  intros T tp m bus H Hsorted Hall r. subst r. unfold post. simpl.
  rewrite snapshotMatching_defined.
  2:{ eapply List.Forall_impl; [|exact Hall]. intros sub [Hne _].
      apply isTopicMatch_defined, Hne. }
  destruct (post_invoke_completes (List.filter (matches tp) (subscriptions_ bus))
              (List.length H) (H ++ [TypedMessage T m]) [])
    as (Hc & Hm & Ho).
  { apply List.Forall_forall. intros sub Hs. apply filter_In in Hs as [Hs _].
    rewrite List.Forall_forall in Hall. apply (Hall sub Hs). }
  split; [exact Hc|]. split; [exact Hm|]. split; [|split; [exact Ho | reflexivity]].
  rewrite Hm. apply filter_sorted, Hsorted.
Qed.

(** ** Failures raised by handlers *)

(** C5, as the code has it.  An exception derived from [std::exception]
    that a handler throws is caught where the handler is called, in [post]
    and in the worker: the handler adds nothing to the results and the loop
    goes on with the remaining handlers.  On a registry whose handlers throw
    nothing else (and whose patterns are not empty), [post] returns as soon
    as no handler returns null, having called every matching handler, and a
    dispatching step of the worker comes back to the head of its loop. *)
Theorem std_exception_caught_and_dispatch_continues :
  forall bus,
    List.Forall (fun sub => topicPattern sub <> "" /\ throws_only_std (handler sub))
                (subscriptions_ bus) ->
    (forall sub (rest : list Subscription) (msg : loc) H H' (e : exn)
            (results : list (@Response V)),
        handler sub msg H = (Throws e, H') ->
        derived_from_std_exception e = true ->
        let inv := {| inv_sub := sub; inv_heap := H; inv_outcome := Throws e |} in
        post_invoke (sub :: rest) msg H results
          = record_call inv (post_invoke rest msg H' results) /\
        dispatch_invoke (sub :: rest) msg H
          = record_call inv (dispatch_invoke rest msg H') /\
        contribution inv = []) /\
    (forall (T : type_info) (tp : Topic) (m : V) H,
        List.Forall (fun sub => never_null (handler sub)) (subscriptions_ bus) ->
        let r := post T tp m bus H in
        completion r = Completed (flat_map contribution (trace r)) /\
        map inv_sub (trace r) = List.filter (matches tp) (subscriptions_ bus)) /\
    (forall (w : Worker) (event : MessageEvent) (q : list MessageEvent),
        bus_of w = bus -> pc w = AfterWait -> running_ bus = true ->
        messageQueue_ bus = event :: q ->
        exists w' tr,
          dispatchLoop_step w = Some w' /\
          pc w' = AtWhile /\
          messageQueue_ (bus_of w') = q /\
          delivered w' = delivered w ++ tr /\
          map inv_sub tr = List.filter (matches (topic event)) (subscriptions_ bus)).
Proof.
  intros bus Hall. split; [|split].
  - intros sub rest msg H H' e results Hcall Hstd inv. subst inv.
    simpl. rewrite Hcall, Hstd. repeat split.
  - intros T tp m H Hnn r. subst r.
    assert (Hall' : List.Forall (fun sub => topicPattern sub <> "" /\
                      throws_only_std (handler sub) /\ never_null (handler sub))
                      (subscriptions_ bus)).
    { apply List.Forall_forall. intros sub Hs. rewrite List.Forall_forall in Hall, Hnn.
      destruct (Hall sub Hs) as [Hne Hstd]. repeat split; [exact Hne | exact Hstd |].
      apply (Hnn sub Hs). }
    unfold post. simpl. rewrite snapshotMatching_defined.
    2:{ eapply List.Forall_impl; [|exact Hall]. intros sub [Hne _].
        apply isTopicMatch_defined, Hne. }
    destruct (post_invoke_completes (List.filter (matches tp) (subscriptions_ bus))
                (List.length H) (H ++ [TypedMessage T m]) [])
      as (Hc & Hm & _).
    { apply List.Forall_forall. intros sub Hs. apply filter_In in Hs as [Hs _].
      rewrite List.Forall_forall in Hall'. apply (Hall' sub Hs). }
    split; [exact Hc | exact Hm].
  - intros w event q Hbus Hpc Hrun Hq. subst bus.
    unfold dispatchLoop_step. rewrite Hpc, Hrun, Hq. simpl.
    rewrite snapshotMatching_defined.
    2:{ eapply List.Forall_impl; [|exact Hall]. intros sub [Hne _].
        apply isTopicMatch_defined, Hne. }
    destruct (dispatch_invoke_completes
                (List.filter (matches (topic event)) (subscriptions_ (bus_of w)))
                (message event) (heap_of w)) as (Hc & Hm).
    { apply List.Forall_forall. intros sub Hs. apply filter_In in Hs as [Hs _].
      rewrite List.Forall_forall in Hall. apply (Hall sub Hs). }
    eexists. eexists. split; [reflexivity|]. simpl. rewrite Hc.
    repeat split. exact Hm.
Qed.

(** ** The envelope is copied, not shared *)









(** ** The worker loop *)

Lemma dispatchLoop_step_exit (w w' : @Worker V) :
  dispatchLoop_step w = Some w' ->
  pc w' = Exited ->
  running_ (bus_of w) = false /\ w' = at_pc Exited w.
Proof.
  unfold dispatchLoop_step. intros Hstep Hexit.
  destruct (pc w); try discriminate.
  - destruct (running_ (bus_of w)); injection Hstep as <-;
      [discriminate | split; reflexivity].
  - destruct (negb (running_ (bus_of w)) || _); [|discriminate].
    injection Hstep as <-. discriminate.
  - destruct (running_ (bus_of w)); simpl in Hstep;
      [|injection Hstep as <-; split; reflexivity].
    destruct (messageQueue_ (bus_of w)) as [|event q];
      [injection Hstep as <-; discriminate|].
    destruct (snapshotMatching _ _); injection Hstep as <-; simpl in Hexit;
      [destruct (completion _)|]; discriminate.
Qed.

(** C3, as the code has it.  A step of the worker that returns from
    [dispatchLoop] reads [running_] as false, and takes nothing from the
    queue and calls no handler; once [running_] is false the worker returns
    at its next test of the flag, whatever the queue holds. *)
Theorem worker_returns_only_after_stop :
  forall w w' : @Worker V,
    dispatchLoop_step w = Some w' ->
    pc w' = Exited ->
    running_ (bus_of w) = false /\
    bus_of w' = bus_of w /\ heap_of w' = heap_of w /\ delivered w' = delivered w /\
    (forall w0 : @Worker V,
        running_ (bus_of w0) = false ->
        (pc w0 = AtWhile \/ pc w0 = AfterWait ->
           dispatchLoop_step w0 = Some (at_pc Exited w0)) /\
        (pc w0 = AtWait -> dispatchLoop_step w0 = Some (at_pc AfterWait w0))).
Proof.
  intros w w' Hstep Hexit.
  destruct (dispatchLoop_step_exit w w' Hstep Hexit) as [Hstop ->].
  split; [exact Hstop|]. do 3 (split; [reflexivity|]).
  intros w0 Hstop0. unfold dispatchLoop_step. rewrite Hstop0. split.
  - intros [-> | ->]; reflexivity.
  - intros ->. reflexivity.
Qed.

(** ** Registries built by [subscribe] *)

Lemma wrappedHandler_throws_only_std (T : type_info) (h : @UserHandler V) :
  throws_only_std h -> throws_only_std (wrappedHandler T h).
Proof.
  intros Hh msg H e. unfold wrappedHandler.
  destruct (dynamic_pointer_cast T msg H) as [d|]; simpl; [apply Hh | discriminate].
Qed.

Lemma wrappedHandler_never_null (T : type_info) (h : @UserHandler V) :
  never_null h -> never_null (wrappedHandler T h).
Proof.
  intros Hh msg H. unfold wrappedHandler.
  destruct (dynamic_pointer_cast T msg H) as [d|]; simpl; [apply Hh | discriminate].
Qed.

(** A property of subscriptions that every [subscribe] call of a sequence
    establishes, whatever identifier it draws, holds of the whole registry. *)
Lemma run_ops_Forall (P : @Subscription V -> Prop) (ops : list RegistryOp) :
  forall bus,
    List.Forall P (subscriptions_ bus) ->
    List.Forall (fun op => match op with
                           | OpSubscribe T pattern h prio =>
                               forall i, P {| id := i; topicPattern := pattern;
                                              handler := wrappedHandler T h;
                                              priority := prio |}
                           | OpUnsubscribe _ => True
                           end) ops ->
    List.Forall P (subscriptions_ (snd (run_ops ops bus))).
Proof.
  induction ops as [|op ops IH]; intros bus Hbus Hops; [exact Hbus|].
  pose proof (Forall_inv Hops) as Hop. pose proof (Forall_inv_tail Hops) as Hrest.
  destruct op as [T pattern h prio | i]; cbn [run_ops].
  - destruct (subscribe T pattern h prio bus) as [j bus1] eqn:Hsub.
    specialize (IH bus1). destruct (run_ops ops bus1) as [ids bus2]. simpl in *.
    apply IH; [|exact Hrest].
    unfold subscribe in Hsub. injection Hsub as _ <-. simpl.
    apply List.Forall_forall. intros sub Hs.
    apply (Permutation_in _ (stable_sort_Permutation _)) in Hs.
    apply in_app_iff in Hs as [Hs | [<- | []]]; [|apply Hop].
    rewrite List.Forall_forall in Hbus. apply (Hbus sub Hs).
  - apply IH; [|exact Hrest].
    apply List.Forall_forall. intros sub Hs. simpl in Hs.
    apply remove_if_In in Hs as [Hs _].
    rewrite List.Forall_forall in Hbus. apply (Hbus sub Hs).
Qed.

End EventBusProperties.

(** * The scenarios *)

(** ** Handlers of the scenarios *)

Lemma void_handler_behaves :
  throws_only_std void_handler /\ never_null void_handler /\
  forall m, preserves_cell m void_handler.
Proof.
  split; [|split].
  - intros msg H e. discriminate.
  - intros msg H. discriminate.
  - intros m p H c _ Hm. exact Hm.
Qed.

Lemma risk_handler_behaves :
  throws_only_std risk_handler /\ never_null risk_handler /\
  forall m, preserves_cell m risk_handler.
Proof.
  split; [|split].
  - intros msg H e. unfold risk_handler.
    destruct (H !! msg) as [[T d | T d]|]; simpl; intros [= <-]; reflexivity.
  - intros msg H. unfold risk_handler.
    destruct (H !! msg) as [[T d | T d]|]; discriminate.
  - intros m p H c _ Hm. unfold risk_handler.
    destruct (H !! p) as [[T d | T d]|]; exact Hm.
Qed.

Lemma declining_handler_behaves :
  throws_only_std declining_handler /\ never_null declining_handler /\
  forall m, preserves_cell m declining_handler.
Proof.
  split; [|split].
  - intros msg H e. discriminate.
  - intros msg H. discriminate.
  - intros m p H c _ Hm. exact Hm.
Qed.

Lemma throwing_handler_behaves :
  throws_only_std throwing_handler /\ never_null throwing_handler /\
  forall m, preserves_cell m throwing_handler.
Proof.
  split; [|split].
  - intros msg H e [= <-]. reflexivity.
  - intros msg H. discriminate.
  - intros m p H c _ Hm. exact Hm.
Qed.

Lemma overwriting_handler_behaves :
  throws_only_std overwriting_handler /\ never_null overwriting_handler /\
  forall m, preserves_cell m overwriting_handler.
Proof.
  split; [|split].
  - intros msg H e. discriminate.
  - intros msg H. discriminate.
  - intros m p H c Hne Hm. unfold overwriting_handler. simpl.
    unfold Heap in *. rewrite list_lookup_insert_ne; [exact Hm | exact Hne].
Qed.

Lemma priority_bus_well_made (m : loc) :
  List.Forall (well_made m) (subscriptions_ priority_bus).
Proof.
  assert (Hmade : forall (h : @UserHandler Z) T pattern prio i,
             pattern <> "" ->
             (throws_only_std h /\ never_null h /\ forall m, preserves_cell m h) ->
             well_made m {| id := i; topicPattern := pattern;
                            handler := wrappedHandler T h; priority := prio |}).
  { intros h T pattern prio i Hne (Hstd & Hnn & Hframe). unfold well_made. simpl.
    split; [exact Hne|].
    split; [apply wrappedHandler_throws_only_std, Hstd|].
    split; [apply wrappedHandler_never_null, Hnn|].
    exists T, h. split; [reflexivity | apply Hframe]. }
  unfold priority_bus. apply run_ops_Forall; [constructor|].
  unfold priority_ops.
  repeat (apply List.Forall_cons; [try exact I|]); [| | | | |constructor]; intros i; apply Hmade;
    first [ discriminate
          | apply risk_handler_behaves | apply throwing_handler_behaves
          | apply declining_handler_behaves | apply void_handler_behaves
          | apply overwriting_handler_behaves ].
Qed.

Lemma priority_bus_sorted : StronglySorted registry_order (subscriptions_ priority_bus).
Proof.
  unfold priority_bus.
  destruct (run_ops_inv priority_ops EventBus_new
              (fst (run_ops priority_ops EventBus_new))
              (snd (run_ops priority_ops EventBus_new)) EventBus_new_inv)
    as [[Hs _] _]; [vm_compute; reflexivity | apply surjective_pairing | exact Hs].
Qed.

Example priority_bus_registry :
  map (fun sub => (id sub, topicPattern sub, priority sub)) (subscriptions_ priority_bus)
  = [(5%N, "trade.priority", 0%Z); (2%N, "trade.*", 10%Z);
     (3%N, "trade.priority", 10%Z); (1%N, "trade.priority", 100%Z)].
Proof. vm_compute. reflexivity. Qed.

Example priority_bus_post :
  let r := post TradeEvent "trade.priority" 15025%Z priority_bus [] in
  completion r
    = Completed [ResponseVoid TypedResponseVoid_default;
                 ResponseTyped RiskResult (TypedResponse_of 1%Z)] /\
  map (fun inv => id (inv_sub inv)) (trace r) = [5%N; 2%N; 3%N; 1%N] /\
  final_heap r !! 0%nat = Some (TypedMessage TradeEvent 15025%Z).
Proof. vm_compute. repeat split. Qed.

(** ** The tests *)

(** ResponseData: one valid response, allowed above 100 only. *)
Example response_data_test :
  completion (post TradeEvent "trade.response" 15025%Z response_bus [])
    = Completed [ResponseTyped RiskResult (TypedResponse_of 1%Z)] /\
  completion (post TradeEvent "trade.response" 8050%Z response_bus [])
    = Completed [ResponseTyped RiskResult (TypedResponse_of 0%Z)].
Proof. vm_compute. split; reflexivity. Qed.

(** Unsubscription: the handler is called by the first [post] only. *)
Example unsubscription_test :
  List.length (trace (post TradeEvent "trade.test" 19550%Z basic_bus [])) = 1%nat /\
  trace (post TradeEvent "trade.test" 19600%Z (unsubscribe 1%N basic_bus) []) = [].
Proof. vm_compute. split; reflexivity. Qed.

(** No subscription matches: the result is the empty list. *)
Example post_without_match :
  completion (post TradeEvent "risk.check" 15025%Z priority_bus []) = Completed [].
Proof. vm_compute. reflexivity. Qed.

(** ** C1 *)

(** The BasicSubscription handler returns [TypedResponse<void>()], whose
    flag defaults to true: the capsule is an entry of the result of [post].
    So is the capsule that the adapter returns for the [VoidMessage] handler
    of Main.cpp when a [TradeEvent] is posted. *)
Lemma post_keeps_valid_void_capsules :
  completion (post TradeEvent "trade.test" 15025%Z basic_bus [])
    = Completed [ResponseVoid TypedResponseVoid_default] /\
  is_void_capsule (@ResponseVoid Z TypedResponseVoid_default) = true /\
  completion (post TradeEvent "basic.trade" 15025%Z mixed_bus [])
    = Completed [ResponseTyped RiskResult (TypedResponse_of 1%Z);
                 ResponseVoid TypedResponseVoid_default].
Proof. vm_compute. repeat split. Qed.

Lemma post_returns_valid_responses_witness :
  let r := post TradeEvent "trade.priority" 15025%Z priority_bus [] in
  StronglySorted registry_order (subscriptions_ priority_bus) /\
  completion r = Completed (flat_map contribution (trace r)) /\
  map inv_sub (trace r)
    = List.filter (matches "trade.priority") (subscriptions_ priority_bus) /\
  StronglySorted registry_order (map inv_sub (trace r)).
Proof.
  intros r. split; [exact priority_bus_sorted|].
  destruct (post_returns_valid_responses_in_registry_order
              TradeEvent "trade.priority" 15025%Z priority_bus []
              priority_bus_sorted) as (Hc & Hm & Hs & _).
  - eapply List.Forall_impl; [|apply (priority_bus_well_made 0)].
    intros sub (Hne & Hstd & Hnn & _). repeat split; assumption.
  - repeat split; assumption.
Defined.

(** ** C3 *)

(** A message is queued, then [stop()] is called: the worker returns at its
    first test of [running_], the message is still in the queue and no
    handler has been called.  The same happens when [stop()] falls between
    the end of the wait and the test that follows it. *)
Lemma worker_leaves_queued_message_at_stop :
  (exists w,
      system_run [CallPostAsync TradeEvent "trade.test" 15025%Z; CallStop; WorkerStep]
                 (started basic_bus []) = Some w /\
      pc w = Exited /\
      messageQueue_ (bus_of w) = [ {| topic := "trade.test"; message := 0%nat |} ] /\
      delivered w = []) /\
  (exists w,
      system_run [WorkerStep; CallPostAsync TradeEvent "trade.test" 15025%Z;
                  WorkerStep; CallStop; WorkerStep]
                 (started basic_bus []) = Some w /\
      pc w = Exited /\
      messageQueue_ (bus_of w) = [ {| topic := "trade.test"; message := 0%nat |} ] /\
      delivered w = []).
Proof. split; eexists; vm_compute; repeat split. Qed.

(** Without [stop()], the same message is dispatched. *)
Example worker_dispatches_queued_message :
  exists w,
    system_run [WorkerStep; CallPostAsync TradeEvent "trade.test" 15025%Z;
                WorkerStep; WorkerStep]
               (started basic_bus []) = Some w /\
    pc w = AtWhile /\ messageQueue_ (bus_of w) = [] /\
    map (fun inv => id (inv_sub inv)) (delivered w) = [1%N].
Proof. eexists; vm_compute; repeat split. Qed.

Lemma worker_returns_only_after_stop_witness :
  dispatchLoop_step stopped_worker = Some (at_pc Exited stopped_worker) /\
  running_ (bus_of stopped_worker) = false /\
  messageQueue_ (bus_of (at_pc Exited stopped_worker)) = messageQueue_ (bus_of stopped_worker).
Proof.
  assert (Hstep : dispatchLoop_step stopped_worker = Some (at_pc Exited stopped_worker))
    by reflexivity.
  destruct (worker_returns_only_after_stop stopped_worker (at_pc Exited stopped_worker)
              Hstep eq_refl) as (Hstop & Hbus & _).
  split; [exact Hstep|]. split; [exact Hstop|]. rewrite Hbus. reflexivity.
Defined.

(** ** C5 *)

(** A handler that throws an [int]: the exception leaves [post], the next
    handler is not called; in the worker it leaves the thread function. *)
Lemma foreign_exception_leaves_post_and_worker :
  (let r := post TradeEvent "trade.test" 15025%Z faulty_bus [] in
   completion r = Propagated (foreign_exception "int") /\
   map (fun inv => id (inv_sub inv)) (trace r) = [1%N] /\
   map id (List.filter (matches "trade.test") (subscriptions_ faulty_bus)) = [1%N; 2%N]) /\
  (exists w,
      system_run [WorkerStep; CallPostAsync TradeEvent "trade.test" 15025%Z;
                  WorkerStep; WorkerStep]
                 (started faulty_bus []) = Some w /\
      pc w = Terminated /\
      map (fun inv => id (inv_sub inv)) (delivered w) = [1%N]).
Proof. split; [|eexists]; vm_compute; repeat split. Qed.

Lemma std_exception_caught_witness :
  (forall rest results,
      let H := [TypedMessage TradeEvent 15025%Z] in
      let inv := {| inv_sub := throwing_subscription; inv_heap := H;
                    inv_outcome := Throws (runtime_error "handler failed") |} in
      post_invoke (throwing_subscription :: rest) 0%nat H results
      = record_call inv
          (post_invoke rest 0%nat (H ++ [Payload TradeEvent 15025%Z]) results)) /\
  (let r := post TradeEvent "trade.priority" 15025%Z (bus_of dispatching_worker) [] in
   completion r = Completed (flat_map contribution (trace r)) /\
   map inv_sub (trace r)
     = List.filter (matches "trade.priority") (subscriptions_ (bus_of dispatching_worker))) /\
  (exists w' tr,
      dispatchLoop_step dispatching_worker = Some w' /\
      pc w' = AtWhile /\
      messageQueue_ (bus_of w') = [] /\
      delivered w' = delivered dispatching_worker ++ tr /\
      map inv_sub tr
        = List.filter (matches "trade.priority") (subscriptions_ (bus_of dispatching_worker))).
Proof.
  destruct (std_exception_caught_and_dispatch_continues (bus_of dispatching_worker))
    as (Hlocal & Hpost & Hworker).
  - eapply List.Forall_impl; [|apply (priority_bus_well_made 0)].
    intros sub (Hne & Hstd & _). split; assumption.
  - split; [|split].
    + intros rest results H inv.
      apply (Hlocal throwing_subscription rest 0%nat H
               (H ++ [Payload TradeEvent 15025%Z])
               (runtime_error "handler failed") results); reflexivity.
    + apply Hpost.
      eapply List.Forall_impl; [|apply (priority_bus_well_made 0)].
      intros sub (_ & _ & Hnn & _). exact Hnn.
    + apply (Hworker dispatching_worker
               {| topic := "trade.priority"; message := 0%nat |} []); reflexivity.
Defined.

(** ** C6 *)

Lemma wrappedHandler_type_check_witness :
  let H := [TypedMessage TradeEvent 15025%Z] in
  wrappedHandler VoidMessage void_handler 0%nat H
    = (Returns (Some (ResponseVoid TypedResponseVoid_default)), H) /\
  (forall h' : UserHandler,
      wrappedHandler VoidMessage h' 0%nat H
      = wrappedHandler VoidMessage void_handler 0%nat H).
Proof.
  intros H.
  destruct (wrappedHandler_type_check VoidMessage TradeEvent void_handler 0%nat H
              15025%Z void_subscription [] [] eq_refl eq_refl) as [_ Hmismatch].
  destruct Hmismatch as (Hvoid & _ & Hany & _); [discriminate|].
  split; [exact Hvoid | exact Hany].
Defined.

Example wrappedHandler_on_match :
  wrappedHandler TradeEvent risk_handler 0%nat [TypedMessage TradeEvent 15025%Z]
  = (Returns (Some (ResponseTyped RiskResult (TypedResponse_of 1%Z))),
     [TypedMessage TradeEvent 15025%Z; Payload TradeEvent 15025%Z]).
Proof. reflexivity. Qed.

(** ** C7 *)

Lemma registry_invariant_witness :
  (N.of_nat (count_subscribes priority_ops) < size_t_modulus)%N /\
  StronglySorted N.lt (0%N :: fst (run_ops priority_ops EventBus_new)) /\
  List.NoDup (map id (subscriptions_ priority_bus)) /\
  StronglySorted registry_order (subscriptions_ priority_bus).
Proof.
  assert (Hcount : (N.of_nat (count_subscribes priority_ops) < size_t_modulus)%N)
    by (vm_compute; reflexivity).
  split; [exact Hcount|].
  destruct (registry_invariant_until_counter_wraps priority_ops
              (fst (run_ops priority_ops EventBus_new))
              (snd (run_ops priority_ops EventBus_new))
              Hcount (surjective_pairing _)) as (Hids & Hnd & _ & Hsorted).
  repeat split; assumption.
Defined.

Example priority_ops_identifiers :
  fst (run_ops priority_ops EventBus_new) = [1%N; 2%N; 3%N; 4%N; 5%N].
Proof. vm_compute. reflexivity. Qed.

(** The [size_t] counter wraps.  A client subscribes and unsubscribes at
    once, [2 ^ 64] times over: the registry holds one subscription at most at
    any time, and the last [subscribe] call returns the identifier 0, below
    every identifier returned before. *)
Lemma identifier_zero_after_churn :
  In 0%N (fst (run_ops churning_ops EventBus_new)) /\
  ~ StronglySorted N.lt (0%N :: fst (run_ops churning_ops EventBus_new)) /\
  (forall j, (List.length (subscriptions_
                (snd (run_ops (firstn j churning_ops) EventBus_new))) <= 1)%nat).
Proof.
  destruct (run_ops_churn TradeEvent "trade.test" void_handler 0
              (N.to_nat size_t_modulus) 0 EventBus_new eq_refl eq_refl)
    as (Hids & _ & Hsmall).
  unfold churning_ops.
  assert (Hpos : (0 < size_t_modulus)%N) by reflexivity.
  assert (Hzero : In 0%N (fst (run_ops (churn TradeEvent "trade.test" void_handler 0 0
                                          (N.to_nat size_t_modulus))
                                       (@EventBus_new Z)))).
  { rewrite Hids. apply in_map_iff. exists (N.to_nat size_t_modulus). split.
    - rewrite N_nat_Z. unfold size_t_wrap. rewrite Z.mod_same by lia. reflexivity.
    - apply in_seq. lia. }
  split; [exact Hzero|]. split; [|exact Hsmall].
  intros Hs. apply StronglySorted_inv in Hs as [_ Hall].
  rewrite List.Forall_forall in Hall. specialize (Hall 0%N Hzero). lia.
Qed.

(** ** C9 *)

Lemma unsubscribe_removes_exactly_witness :
  map id (subscriptions_ (unsubscribe 2%N priority_bus)) = [5%N; 3%N; 1%N] /\
  unsubscribe 4%N priority_bus = priority_bus /\
  List.Forall (fun inv => id (inv_sub inv) <> 2%N)
    (trace (post TradeEvent "trade.priority" 15025%Z (unsubscribe 2%N priority_bus) [])).
Proof.
  destruct (unsubscribe_removes_exactly 2%N priority_bus)
    as (Hsubs & _ & _ & _ & _ & Habs & Hafter).
  destruct (unsubscribe_removes_exactly 4%N priority_bus)
    as (_ & _ & _ & _ & Hnoop & _).
  split; [rewrite Hsubs; vm_compute; reflexivity|].
  split.
  - apply Hnoop. intros sub Hin.
    assert (Hids : List.Forall (fun i => i <> 4%N) (map id (subscriptions_ priority_bus)))
      by (vm_compute; repeat constructor; discriminate).
    rewrite List.Forall_forall in Hids. apply Hids, in_map, Hin.
  - apply (Hafter _ Habs).
Defined.

(** ** C10 *)


(** The handlers that [subscribe<TradeEvent>] adapted are called on a copy
    of the [TradeEvent] posted: what [post] records for the risk handler,
    the last called, is what the handler answers to the price posted, on a
    cell of its own. *)
Example risk_handler_is_called_on_a_copy :
  let r := post TradeEvent "trade.priority" 15025%Z priority_bus [] in
  map (fun inv => (id (inv_sub inv), List.length (inv_heap inv))) (trace r)
    = [(5%N, 1%nat); (2%N, 2%nat); (3%N, 3%nat); (1%N, 4%nat)] /\
  risk_handler 4%nat (final_heap r)
    = (Returns (Some (ResponseTyped RiskResult (TypedResponse_of 1%Z))), final_heap r).
Proof. vm_compute. split; reflexivity. Qed.

(** The first handler called overwrites the [TradeEvent] it was given; the
    handlers after it read the price that was posted. *)
Example overwriting_handler_changes_its_copy_only :
  final_heap (post TradeEvent "trade.priority" 15025%Z priority_bus [])
  = [TypedMessage TradeEvent 15025%Z; Payload TradeEvent 0%Z;
     Payload TradeEvent 15025%Z; Payload TradeEvent 15025%Z;
     Payload TradeEvent 15025%Z].
Proof. vm_compute. reflexivity. Qed.

(** * Further properties *)

(** ** The topic matcher *)

Lemma back_append_star (p : string) : back (String.append p "*") = Some "*"%char.
Proof.
  induction p as [|a p IH]; [reflexivity|].
  change (String.append (String a p) "*") with (String a (String.append p "*")).
  destruct p as [|b p']; [reflexivity|]. exact IH.
Qed.

Lemma length_append_star (p : string) :
  String.length (String.append p "*") = S (String.length p).
Proof. induction p as [|a p IH]; simpl; [reflexivity | rewrite IH; reflexivity]. Qed.

Lemma substring_append_left (p s : string) :
  substring 0 (String.length p) (String.append p s) = p.
Proof.
  induction p as [|a p IH]; simpl; [destruct s; reflexivity|].
  rewrite IH. reflexivity.
Qed.

(** X2.  A pattern made of a prefix and a final ['*'] matches exactly the
    topics that start with the prefix; nothing else of the topic is
    looked at. *)
Theorem isTopicMatch_trailing_star_is_prefix_test :
  forall (p : string) (tp : Topic),
    (N.of_nat (S (String.length p)) < size_t_modulus)%N ->
    isTopicMatch (String.append p "*") tp = Some (String.prefix p tp).
Proof.
  intros p tp Hlen. unfold isTopicMatch.
  destruct (String.eqb (String.append p "*") "*") eqn:Hstar.
  - apply String.eqb_eq in Hstar. destruct p as [|a p].
    + destruct tp; reflexivity.
    + simpl in Hstar. injection Hstar as _ Hp. destruct p; discriminate.
  - rewrite back_append_star, length_append_star.
    rewrite size_t_wrap_pred by (try exact Hlen; lia).
    replace (S (String.length p) - 1)%nat with (String.length p) by lia.
    unfold compare_is_0, substr. rewrite substring_append_left. simpl.
    destruct (String.eqb (substring 0 (String.length p) tp) p) eqn:Hpre.
    + apply String.eqb_eq in Hpre. apply prefix_correct in Hpre. rewrite Hpre. reflexivity.
    + assert (Hnp : String.prefix p tp = false).
      { destruct (String.prefix p tp) eqn:Hp; [|reflexivity].
        apply prefix_correct in Hp. rewrite Hp, String.eqb_refl in Hpre. discriminate. }
      rewrite Hnp. f_equal. apply String.eqb_neq. intros <-.
      rewrite substring_append_left, String.eqb_refl in Hpre. discriminate.
Qed.

Lemma isTopicMatch_trailing_star_witness :
  isTopicMatch (String.append "trade." "*") "trade.sub.deep"
  = Some (String.prefix "trade." "trade.sub.deep").
Proof.
  apply isTopicMatch_trailing_star_is_prefix_test. vm_compute. reflexivity.
Defined.

(** X3.  A pattern whose last character is not ['*'] matches the topic equal
    to it and no other. *)
Theorem isTopicMatch_plain_pattern_is_equality :
  forall (pattern tp : Topic) (c : ascii),
    back pattern = Some c ->
    c <> "*"%char ->
    isTopicMatch pattern tp = Some (String.eqb pattern tp).
Proof.
  intros pattern tp c Hback Hc. unfold isTopicMatch. rewrite Hback.
  apply Ascii.eqb_neq in Hc. rewrite Hc. simpl.
  destruct (String.eqb pattern "*") eqn:Hstar; [|reflexivity].
  apply String.eqb_eq in Hstar. subst pattern. simpl in Hback.
  injection Hback as <-. rewrite Ascii.eqb_refl in Hc. discriminate.
Qed.

Lemma isTopicMatch_plain_pattern_witness :
  isTopicMatch "trade.specific" "trade.wildcard"
  = Some (String.eqb "trade.specific" "trade.wildcard").
Proof.
  apply (isTopicMatch_plain_pattern_is_equality _ _ "c"%char); [reflexivity | discriminate].
Defined.

(** X4.  Every non-empty pattern matches the topic equal to it, with or
    without a final ['*']. *)
Theorem isTopicMatch_pattern_matches_itself :
  forall pattern : Topic, pattern <> "" -> isTopicMatch pattern pattern = Some true.
Proof.
  intros pattern Hne. unfold isTopicMatch.
  destruct (String.eqb pattern "*"); [reflexivity|].
  destruct (back_nonempty pattern Hne) as [c ->].
  rewrite String.eqb_refl. destruct (_ && _); reflexivity.
Qed.

Lemma isTopicMatch_pattern_matches_itself_witness :
  isTopicMatch "trade.*" "trade.*" = Some true.
Proof. apply isTopicMatch_pattern_matches_itself. discriminate. Defined.

Section EventBusFurther.

Context {V : Type}.
Implicit Types (H : @Heap V) (bus : @EventBus V) (sub : @Subscription V).

(** ** The registry under [subscribe] *)

Lemma stable_insert_le_sorted sub (l : list Subscription) :
  StronglySorted le_priority l -> StronglySorted le_priority (stable_insert sub l).
Proof.
  induction 1 as [|y l Hs IH Hy]; simpl; [constructor; constructor|].
  unfold Subscription_lt. destruct (Z.ltb_spec (priority y) (priority sub)) as [Hlt | Hge].
  - constructor; [exact IH|].
    apply List.Forall_forall. intros z Hz.
    apply (Permutation_in _ (stable_insert_Permutation sub l)) in Hz.
    destruct Hz as [<- | Hz]; [unfold le_priority; lia|].
    rewrite List.Forall_forall in Hy. apply Hy, Hz.
  - constructor; [constructor; assumption|].
    constructor; [exact Hge|].
    eapply List.Forall_impl; [|exact Hy]. unfold le_priority. intros z Hz. lia.
Qed.

Lemma stable_sort_le_sorted (l : list (@Subscription V)) :
  StronglySorted le_priority (stable_sort l).
Proof.
  induction l as [|x l IH]; simpl; [constructor | apply stable_insert_le_sorted, IH].
Qed.

Lemma stable_insert_has_priority (p : Z) sub (l : list Subscription) :
  List.filter (has_priority p) (stable_insert sub l)
  = List.filter (has_priority p) (sub :: l).
Proof.
  induction l as [|y l IH]; [reflexivity|].
  cbn [stable_insert]. unfold Subscription_lt.
  destruct (Z.ltb_spec (priority y) (priority sub)) as [Hlt | Hge]; [|reflexivity].
  cbn [List.filter] in *. rewrite IH. unfold has_priority.
  destruct (Z.eqb_spec (priority y) p) as [Hy | Hy];
    destruct (Z.eqb_spec (priority sub) p) as [Hs | Hs]; try reflexivity. lia.
Qed.

Lemma stable_sort_has_priority (p : Z) (l : list (@Subscription V)) :
  List.filter (has_priority p) (stable_sort l) = List.filter (has_priority p) l.
Proof.
  induction l as [|x l IH]; [reflexivity|].
  cbn [stable_sort]. rewrite stable_insert_has_priority. cbn [List.filter].
  rewrite IH. reflexivity.
Qed.

(** X5.  Whatever the registry holds, [subscribe] adds its subscription and
    removes none, leaves the registry in non-decreasing priority order, and
    keeps the subscriptions of each priority in the order they had, the new
    one last among those of its priority. *)
Theorem subscribe_is_a_stable_insertion :
  forall (T : type_info) (pattern : Topic) (h : UserHandler) (prio p : Z) bus,
    let bus' := snd (subscribe T pattern h prio bus) in
    let new := new_subscription T pattern h prio bus in
    Permutation (subscriptions_ bus') (subscriptions_ bus ++ [new]) /\
    StronglySorted le_priority (subscriptions_ bus') /\
    List.filter (has_priority p) (subscriptions_ bus')
      = List.filter (has_priority p) (subscriptions_ bus)
        ++ (if has_priority p new then [new] else []).
Proof.
  intros T pattern h prio p bus bus' new. subst bus' new.
  unfold subscribe, new_subscription. cbn [snd subscriptions_].
  split; [apply stable_sort_Permutation|]. split; [apply stable_sort_le_sorted|].
  rewrite stable_sort_has_priority, List.filter_app. reflexivity.
Qed.

Lemma stable_insert_front sub (l : list Subscription) :
  List.Forall (le_priority sub) l -> stable_insert sub l = sub :: l.
Proof.
  intros Hall. destruct l as [|y l]; [reflexivity|]. simpl.
  unfold Subscription_lt. pose proof (Forall_inv Hall) as Hy. unfold le_priority in Hy.
  destruct (Z.ltb_spec (priority y) (priority sub)); [lia | reflexivity].
Qed.

Lemma filter_none {A} (f : A -> bool) (l : list A) :
  List.Forall (fun x => f x = false) l -> List.filter f l = [].
Proof.
  induction 1 as [|x l Hx _ IH]; simpl; [reflexivity|]. rewrite Hx. exact IH.
Qed.

Lemma filter_all {A} (f : A -> bool) (l : list A) :
  List.Forall (fun x => f x = true) l -> List.filter f l = l.
Proof.
  induction 1 as [|x l Hx _ IH]; simpl; [reflexivity|]. rewrite Hx, IH. reflexivity.
Qed.

(** A registry in priority order splits, at any priority, into the part not
    after it and the part after it. *)
Lemma le_sorted_split (p : Z) (l : list (@Subscription V)) :
  StronglySorted le_priority l ->
  List.filter (not_after p) l ++ List.filter (after p) l = l.
Proof.
  induction 1 as [|a l Hs IH Ha]; [reflexivity|].
  cbn [List.filter]. unfold not_after at 1, after at 1.
  destruct (Z.leb_spec (priority a) p) as [Hle | Hgt].
  - destruct (Z.ltb_spec p (priority a)); [lia|]. simpl. rewrite IH. reflexivity.
  - destruct (Z.ltb_spec p (priority a)); [|lia].
    rewrite (filter_none (not_after p) l), (filter_all (after p) l); [reflexivity| |].
    + eapply List.Forall_impl; [|exact Ha]. unfold le_priority, after.
      intros z Hz. apply Z.ltb_lt. lia.
    + eapply List.Forall_impl; [|exact Ha]. unfold le_priority, not_after.
      intros z Hz. apply Z.leb_gt. lia.
Qed.

Lemma stable_sort_snoc sub (l : list Subscription) :
  StronglySorted le_priority l ->
  stable_sort (l ++ [sub])
  = List.filter (not_after (priority sub)) l ++ sub :: List.filter (after (priority sub)) l.
Proof.
  induction 1 as [|a l Hs IH Ha]; [reflexivity|].
  cbn [app stable_sort]. rewrite IH. cbn [List.filter].
  unfold not_after at 2, after at 2.
  destruct (Z.leb_spec (priority a) (priority sub)) as [Hle | Hgt].
  - destruct (Z.ltb_spec (priority sub) (priority a)); [lia|].
    apply stable_insert_front. apply List.Forall_app. split.
    + apply List.Forall_forall. intros z Hz. apply filter_In in Hz as [Hz _].
      rewrite List.Forall_forall in Ha. apply Ha, Hz.
    + constructor; [exact Hle|].
      apply List.Forall_forall. intros z Hz. apply filter_In in Hz as [Hz _].
      rewrite List.Forall_forall in Ha. apply Ha, Hz.
  - destruct (Z.ltb_spec (priority sub) (priority a)); [|lia].
    rewrite (filter_none (not_after (priority sub)) l),
            (filter_all (after (priority sub)) l).
    + simpl. unfold Subscription_lt.
      destruct (Z.ltb_spec (priority sub) (priority a)); [|lia].
      rewrite stable_insert_front; [reflexivity | exact Ha].
    + eapply List.Forall_impl; [|exact Ha]. unfold le_priority, after.
      intros z Hz. apply Z.ltb_lt. lia.
    + eapply List.Forall_impl; [|exact Ha]. unfold le_priority, not_after.
      intros z Hz. apply Z.leb_gt. lia.
Qed.

(** X6.  On a registry in priority order, [subscribe] puts the new
    subscription behind every subscription whose priority value is not
    larger than its own and in front of all the others, which stay as they
    were. *)
Theorem subscribe_inserts_behind_equal_priorities :
  forall (T : type_info) (pattern : Topic) (h : UserHandler) (prio : Z) bus,
    StronglySorted le_priority (subscriptions_ bus) ->
    subscriptions_ (snd (subscribe T pattern h prio bus))
    = List.filter (not_after prio) (subscriptions_ bus)
      ++ new_subscription T pattern h prio bus
      :: List.filter (after prio) (subscriptions_ bus).
Proof.
  intros T pattern h prio bus Hs. unfold subscribe. cbn [snd subscriptions_].
  rewrite stable_sort_snoc by exact Hs. reflexivity.
Qed.

(** X7.  On a registry in priority order that does not hold the next
    identifier, [unsubscribe] of the identifier that [subscribe] has just
    returned gives the registry back as it was; the counter keeps the
    identifier, so it is not drawn again before the counter wraps. *)
Theorem unsubscribe_undoes_subscribe :
  forall (T : type_info) (pattern : Topic) (h : UserHandler) (prio : Z) bus,
    StronglySorted le_priority (subscriptions_ bus) ->
    absent (size_t_wrap (Z.of_N (handlerIdCounter_ bus) + 1)) bus ->
    let '(i, bus') := subscribe T pattern h prio bus in
    subscriptions_ (unsubscribe i bus') = subscriptions_ bus /\
    messageQueue_ (unsubscribe i bus') = messageQueue_ bus /\
    running_ (unsubscribe i bus') = running_ bus /\
    handlerIdCounter_ (unsubscribe i bus') = i.
Proof.
  intros T pattern h prio bus Hs Habs.
  unfold subscribe. split; [|repeat split].
  cbn [unsubscribe subscriptions_].
  rewrite (stable_sort_snoc _ _ Hs). cbn [priority].
  set (i := size_t_wrap (Z.of_N (handlerIdCounter_ bus) + 1)) in *.
  assert (Hkeep : forall f, remove_if (fun sub => N.eqb (id sub) i)
                              (List.filter f (subscriptions_ bus))
                            = List.filter f (subscriptions_ bus)).
  { intros f. apply remove_if_none. intros sub Hin. apply filter_In in Hin as [Hin _].
    apply N.eqb_neq. apply (Habs sub Hin). }
  rewrite remove_if_filter, List.filter_app, <- !remove_if_filter.
  cbn [remove_if id]. rewrite N.eqb_refl, !Hkeep.
  apply le_sorted_split, Hs.
Qed.

(** ** [unsubscribe] composed with itself *)

Lemma remove_if_comm (f g : @Subscription V -> bool) (l : list Subscription) :
  remove_if f (remove_if g l) = remove_if g (remove_if f l).
Proof.
  induction l as [|x l IH]; [reflexivity|]. simpl.
  destruct (g x) eqn:Hg, (f x) eqn:Hf; simpl; rewrite ?Hg, ?Hf, IH; reflexivity.
Qed.

Lemma remove_if_idem (f : @Subscription V -> bool) (l : list Subscription) :
  remove_if f (remove_if f l) = remove_if f l.
Proof.
  induction l as [|x l IH]; [reflexivity|]. simpl.
  destruct (f x) eqn:Hf; simpl; rewrite ?Hf, IH; reflexivity.
Qed.

(** X8.  Two [unsubscribe] calls give the same bus in either order, and a
    second [unsubscribe] of the same identifier changes nothing. *)
Theorem unsubscribe_commutes_and_is_idempotent :
  forall (i j : HandlerId) bus,
    unsubscribe i (unsubscribe j bus) = unsubscribe j (unsubscribe i bus) /\
    unsubscribe i (unsubscribe i bus) = unsubscribe i bus.
Proof.
  intros i j bus. unfold unsubscribe. simpl. split; f_equal.
  - apply remove_if_comm.
  - apply remove_if_idem.
Qed.

(** ** The empty pattern *)

Lemma snapshotMatching_undefined (subs : list (@Subscription V)) (tp : Topic) :
  snapshotMatching subs tp = None <->
  exists sub, In sub subs /\ topicPattern sub = "".
Proof.
  induction subs as [|sub subs IH]; simpl.
  - split; [discriminate | intros (s & [] & _)].
  - destruct (string_dec (topicPattern sub) "") as [He | Hne].
    + rewrite He. simpl. split; [|reflexivity]. intros _. exists sub. split; [left; reflexivity | exact He].
    + destruct (isTopicMatch (topicPattern sub) tp) as [b|] eqn:Hm;
        [|exfalso; exact (isTopicMatch_defined _ tp Hne Hm)].
      destruct (snapshotMatching subs tp) as [hs|].
      * split; [discriminate|]. intros (s & [<- | Hin] & Hs); [contradiction|].
        assert (Hnone : Some hs = None) by (apply IH; exists s; split; assumption).
        discriminate.
      * split; [|reflexivity]. intros _. destruct (proj1 IH eq_refl) as (s & Hin & Hs).
        exists s. split; [right; exact Hin | exact Hs].
Qed.

Lemma post_invoke_undefined_has_called (handlers : list (@Subscription V)) :
  forall msg H results,
    completion (post_invoke handlers msg H results) = UndefinedBehaviour ->
    trace (post_invoke handlers msg H results) <> [].
Proof.
  destruct handlers as [|sub rest]; intros msg H results; simpl; [discriminate|].
  destruct (handler sub msg H) as [[[r|]|e] H']; simpl; try discriminate.
  destruct (derived_from_std_exception e); simpl; discriminate.
Qed.

(** X9.  [post] runs into undefined behaviour before any handler is called
    exactly when some subscription of the registry, matching or not, has the
    empty pattern: one [subscribe] with the pattern [""] spoils every later
    [post], on every topic. *)
Theorem empty_pattern_spoils_every_post :
  forall (T : type_info) (tp : Topic) (m : V) bus H,
    (completion (post T tp m bus H) = UndefinedBehaviour /\
     trace (post T tp m bus H) = [])
    <-> exists sub, In sub (subscriptions_ bus) /\ topicPattern sub = "".
Proof.
  intros T tp m bus H. rewrite <- (snapshotMatching_undefined _ tp).
  unfold post. simpl.
  destruct (snapshotMatching (subscriptions_ bus) tp) as [handlers|].
  - split; [|discriminate]. intros [Hub Htr].
    exfalso. exact (post_invoke_undefined_has_called _ _ _ _ Hub Htr).
  - simpl. split; [reflexivity | split; reflexivity].
Qed.

(** ** The loop of [post] *)

Lemma record_call_eta (r : @Run V) :
  {| completion := completion r; trace := trace r; final_heap := final_heap r |} = r.
Proof. destruct r. reflexivity. Qed.

(** X10.  Over handlers that neither return null nor throw past the
    [catch], the loop of [post] on a list followed by another is the loop on
    the first followed by the loop on the second, started from the store and
    the results that the first has left. *)
Theorem post_invoke_composes :
  forall (l1 l2 : list (@Subscription V)) (msg : loc) H (results : list Response),
    List.Forall (fun sub => throws_only_std (handler sub) /\ never_null (handler sub)) l1 ->
    let r1 := post_invoke l1 msg H results in
    let r2 := post_invoke l2 msg (final_heap r1)
                (results ++ flat_map contribution (trace r1)) in
    post_invoke (l1 ++ l2) msg H results
    = {| completion := completion r2;
         trace := trace r1 ++ trace r2;
         final_heap := final_heap r2 |}.
Proof.
  induction l1 as [|sub l1 IH]; intros l2 msg H results Hall; cbv zeta.
  - simpl. rewrite app_nil_r. symmetry. apply record_call_eta.
  - pose proof (Forall_inv Hall) as [Hstd Hnn]. pose proof (Forall_inv_tail Hall) as Hrest.
    specialize (Hstd msg H). specialize (Hnn msg H).
    cbn [app post_invoke].
    destruct (handler sub msg H) as [out H'] eqn:Hcall. simpl in Hstd, Hnn.
    destruct out as [[r|]|e]; [| congruence |].
    + set (inv := {| inv_sub := sub; inv_heap := H; inv_outcome := Returns (Some r) |}).
      assert (Heq : forall X, (if isValid r then results ++ [r] else results) ++ X
                              = results ++ contribution inv ++ X).
      { intros X. unfold contribution, inv. simpl.
        destruct (isValid r); simpl; rewrite <- ?app_assoc; reflexivity. }
      rewrite (IH l2 msg H' _ Hrest). cbv zeta.
      unfold record_call. cbn [completion trace final_heap flat_map app].
      rewrite <- Heq. reflexivity.
    + rewrite (Hstd e eq_refl).
      rewrite (IH l2 msg H' _ Hrest). cbv zeta.
      unfold record_call. cbn [completion trace final_heap flat_map app].
      reflexivity.
Qed.

(** X11.  When a handler throws an object that is not derived from
    [std::exception], after handlers that behave, [post] ends there: the
    exception leaves it, the handlers behind are not called, and no result
    is returned, not even those collected before. *)
Theorem post_invoke_stops_at_foreign_exception :
  forall (l1 l2 : list (@Subscription V)) sub (msg : loc) H H' (e : exn)
         (results : list Response),
    List.Forall (fun s => throws_only_std (handler s) /\ never_null (handler s)) l1 ->
    handler sub msg (final_heap (post_invoke l1 msg H results)) = (Throws e, H') ->
    derived_from_std_exception e = false ->
    let r := post_invoke (l1 ++ sub :: l2) msg H results in
    completion r = Propagated e /\
    map inv_sub (trace r) = l1 ++ [sub] /\
    final_heap r = H'.
Proof.
  induction l1 as [|a l1 IH]; intros l2 sub msg H H' e results Hall Hcall He; cbv zeta.
  - simpl in *. rewrite Hcall, He. repeat split.
  - pose proof (Forall_inv Hall) as [Hstd Hnn]. pose proof (Forall_inv_tail Hall) as Hrest.
    specialize (Hstd msg H). specialize (Hnn msg H).
    cbn [app post_invoke] in *.
    destruct (handler a msg H) as [out Ha] eqn:Hcalla. simpl in Hstd, Hnn.
    destruct out as [[r|]|e']; [| congruence |].
    + simpl in Hcall. destruct (IH l2 sub msg Ha H' e _ Hrest Hcall He) as (Hc & Hm & Hf).
      simpl. rewrite Hc, Hm, Hf. repeat split.
    + rewrite (Hstd e' eq_refl) in *. simpl in Hcall.
      destruct (IH l2 sub msg Ha H' e _ Hrest Hcall He) as (Hc & Hm & Hf).
      simpl. rewrite Hc, Hm, Hf. repeat split.
Qed.

(** ** The worker and [post] *)

Lemma dispatch_invoke_as_post_invoke (handlers : list (@Subscription V)) :
  forall msg H (results : list Response),
    List.Forall (fun sub => never_null (handler sub)) handlers ->
    trace (dispatch_invoke handlers msg H) = trace (post_invoke handlers msg H results) /\
    final_heap (dispatch_invoke handlers msg H)
      = final_heap (post_invoke handlers msg H results) /\
    completion (dispatch_invoke handlers msg H)
      = without_results (completion (post_invoke handlers msg H results)).
Proof.
  induction handlers as [|sub rest IH]; intros msg H results Hall; simpl.
  - repeat split.
  - pose proof (Forall_inv Hall) as Hnn. pose proof (Forall_inv_tail Hall) as Hrest.
    specialize (Hnn msg H).
    destruct (handler sub msg H) as [out H'] eqn:Hcall. simpl in Hnn.
    destruct out as [[r|]|e]; [| congruence |].
    + destruct (IH msg H' (if isValid r then results ++ [r] else results) Hrest)
        as (Ht & Hf & Hc).
      simpl. rewrite Ht, Hf, Hc. repeat split.
    + destruct (derived_from_std_exception e).
      * destruct (IH msg H' results Hrest) as (Ht & Hf & Hc).
        simpl. rewrite Ht, Hf, Hc. repeat split.
      * simpl. repeat split.
Qed.

(** X12.  On a running bus with an empty queue whose handlers never return
    null, the worker's dispatch of the message of [postAsync(topic, m)]
    calls the handlers that [post(topic, m)] calls, in the same order, with
    the same outcomes and the same effect on the store; it ends as [post]
    ends, without the results. *)
Theorem worker_dispatch_agrees_with_post :
  forall (T : type_info) (tp : Topic) (m : V) bus H (d : list Invocation),
    running_ bus = true ->
    messageQueue_ bus = [] ->
    List.Forall (fun sub => never_null (handler sub)) (subscriptions_ bus) ->
    let r := post T tp m bus H in
    exists w',
      dispatchLoop_step (woken_worker T tp m bus H d) = Some w' /\
      delivered w' = d ++ trace r /\
      heap_of w' = final_heap r /\
      messageQueue_ (bus_of w') = [] /\
      subscriptions_ (bus_of w') = subscriptions_ bus /\
      pc w' = match completion r with
              | Completed _ => AtWhile
              | Propagated _ => Terminated
              | UndefinedBehaviour => Undefined
              end.
Proof.
  intros T tp m bus H d Hrun Hq Hnn r. subst r.
  unfold dispatchLoop_step, woken_worker, post, postAsync. simpl.
  rewrite Hrun, Hq. simpl.
  destruct (snapshotMatching (subscriptions_ bus) tp) as [handlers|] eqn:Hsnap.
  - destruct (dispatch_invoke_as_post_invoke handlers (List.length H)
                (H ++ [TypedMessage T m]) []) as (Ht & Hf & Hc).
    { apply snapshotMatching_filter in Hsnap. subst handlers.
      apply List.Forall_forall. intros sub Hs. apply filter_In in Hs as [Hs _].
      rewrite List.Forall_forall in Hnn. apply (Hnn sub Hs). }
    eexists. split; [reflexivity|]. simpl. rewrite Ht, Hf, Hc.
    repeat split.
    destruct (completion (post_invoke handlers (List.length H) (H ++ [TypedMessage T m]) []));
      reflexivity.
  - eexists. split; [reflexivity|]. simpl. rewrite app_nil_r. repeat split.
Qed.

Lemma system_run_worker_steps3 (w : @Worker V) (acts : list Action) :
  system_run (WorkerStep :: WorkerStep :: WorkerStep :: acts) w
  = match dispatchLoop_step w with
    | None => None
    | Some w1 =>
        match dispatchLoop_step w1 with
        | None => None
        | Some w2 =>
            match dispatchLoop_step w2 with
            | None => None
            | Some w3 => system_run acts w3
            end
        end
    end.
Proof. reflexivity. Qed.

(** X14.  A running worker at the head of its loop, left alone, takes the
    queued messages one by one from the front, three steps each, and calls
    for each of them the subscriptions that match its topic, in registry
    order; it then waits, suspended, on the empty queue.  The patterns are
    not empty and the handlers throw nothing that is not derived from
    [std::exception]. *)
Theorem worker_drains_queue_in_order :
  forall (q : list MessageEvent) (w : @Worker V),
    pc w = AtWhile ->
    running_ (bus_of w) = true ->
    messageQueue_ (bus_of w) = q ->
    List.Forall (fun sub => topicPattern sub <> "" /\ throws_only_std (handler sub))
                (subscriptions_ (bus_of w)) ->
    exists w' tr,
      system_run (repeat WorkerStep (List.length q * 3)) w = Some w' /\
      pc w' = AtWhile /\
      messageQueue_ (bus_of w') = [] /\
      delivered w' = delivered w ++ tr /\
      map inv_sub tr
        = flat_map (fun event => List.filter (matches (topic event))
                                             (subscriptions_ (bus_of w))) q /\
      dispatchLoop_step w' = Some (at_pc AtWait w') /\
      dispatchLoop_step (at_pc AtWait w') = None.
Proof.
  induction q as [|event q IH]; intros w Hpc Hrun Hq Hall.
  - exists w, []. simpl. rewrite app_nil_r.
    unfold dispatchLoop_step. simpl. rewrite Hpc, Hrun, Hq. simpl. repeat split; assumption.
  - change (List.length (event :: q) * 3)%nat with (S (S (S (List.length q * 3)))).
    cbn [repeat]. rewrite system_run_worker_steps3.
    destruct w as [p [subs queue run ctr] hp dl]. simpl in Hpc, Hrun, Hq, Hall. subst.
    unfold dispatchLoop_step at 1. cbn -[dispatchLoop_step system_run].
    unfold dispatchLoop_step at 1. cbn -[dispatchLoop_step system_run].
    unfold dispatchLoop_step at 1. cbn -[system_run dispatch_invoke snapshotMatching].
    rewrite snapshotMatching_defined.
    2:{ eapply List.Forall_impl; [|exact Hall]. intros sub [Hne _].
        apply isTopicMatch_defined, Hne. }
    destruct (dispatch_invoke_completes (List.filter (matches (topic event)) subs)
                (message event) hp) as (Hc & Hm).
    { apply List.Forall_forall. intros sub Hs. apply filter_In in Hs as [Hs _].
      rewrite List.Forall_forall in Hall. apply (Hall sub Hs). }
    rewrite Hc.
    edestruct (IH {| pc := AtWhile;
                     bus_of := dequeue {| subscriptions_ := subs;
                                          messageQueue_ := event :: q;
                                          running_ := true;
                                          handlerIdCounter_ := ctr |} q;
                     heap_of := final_heap (dispatch_invoke
                                   (List.filter (matches (topic event)) subs)
                                   (message event) hp);
                     delivered := dl ++ trace (dispatch_invoke
                                   (List.filter (matches (topic event)) subs)
                                   (message event) hp) |})
      as (w' & tr & Hsteps & Hpc' & Hq' & Hdel & Htr & Hnext & Hwait);
      [reflexivity | reflexivity | reflexivity | exact Hall |].
    exists w', (trace (dispatch_invoke (List.filter (matches (topic event)) subs)
                         (message event) hp) ++ tr).
    split; [exact Hsteps|]. split; [exact Hpc'|]. split; [exact Hq'|].
    split; [rewrite Hdel; simpl; rewrite app_assoc; reflexivity|].
    split; [|split; assumption].
    rewrite map_app, Hm, Htr. reflexivity.
Qed.

(** ** [subscribe], then [post] *)

(** X15.  After [subscribe] with a pattern that matches the topic, on a
    registry whose patterns are not empty and whose handlers, the new one
    included, neither return null nor throw past the [catch], [post] on the
    topic returns and has called the new subscription. *)
Theorem post_calls_new_subscription :
  forall (T U : type_info) (pattern tp : Topic) (h : UserHandler) (prio : Z)
         (m : V) bus H,
    isTopicMatch pattern tp = Some true ->
    throws_only_std h -> never_null h ->
    List.Forall (fun sub => topicPattern sub <> "" /\
                            throws_only_std (handler sub) /\
                            never_null (handler sub)) (subscriptions_ bus) ->
    let '(i, bus') := subscribe T pattern h prio bus in
    let r := post U tp m bus' H in
    completion r = Completed (flat_map contribution (trace r)) /\
    In (new_subscription T pattern h prio bus) (map inv_sub (trace r)) /\
    id (new_subscription T pattern h prio bus) = i.
Proof.
  intros T U pattern tp h prio m bus H Hmatch Hstd Hnn Hall.
  assert (Hne : pattern <> "").
  { intros ->. discriminate. }
  unfold subscribe. cbv zeta.
  fold (new_subscription T pattern h prio bus).
  set (new := new_subscription T pattern h prio bus).
  assert (Hall' : List.Forall (fun sub => topicPattern sub <> "" /\
                                 throws_only_std (handler sub) /\
                                 never_null (handler sub))
                              (stable_sort (subscriptions_ bus ++ [new]))).
  { apply List.Forall_forall. intros sub Hs.
    apply (Permutation_in _ (stable_sort_Permutation _)) in Hs.
    apply in_app_iff in Hs as [Hs | [<- | []]].
    - rewrite List.Forall_forall in Hall. apply (Hall sub Hs).
    - simpl. split; [exact Hne|].
      split; [apply wrappedHandler_throws_only_std, Hstd
             | apply wrappedHandler_never_null, Hnn]. }
  unfold post. simpl.
  rewrite snapshotMatching_defined.
  2:{ eapply List.Forall_impl; [|exact Hall']. intros sub [Hn _].
      apply isTopicMatch_defined, Hn. }
  destruct (post_invoke_completes
              (List.filter (matches tp) (stable_sort (subscriptions_ bus ++ [new])))
              (List.length H) (H ++ [TypedMessage U m]) []) as (Hc & Hm & _).
  { apply List.Forall_forall. intros sub Hs. apply filter_In in Hs as [Hs _].
    rewrite List.Forall_forall in Hall'. destruct (Hall' sub Hs) as (_ & Hs1 & Hs2).
    split; assumption. }
  split; [exact Hc|]. split; [|reflexivity].
  rewrite Hm. apply filter_In. split.
  - apply (Permutation_in _ (Permutation_sym (stable_sort_Permutation _))).
    apply in_app_iff. right. left. reflexivity.
  - unfold matches, new. simpl. rewrite Hmatch. reflexivity.
Qed.

(** ** The identifiers *)

Lemma run_ops_identifiers (ops : list (@RegistryOp V)) :
  forall bus,
    (handlerIdCounter_ bus + N.of_nat (count_subscribes ops) < size_t_modulus)%N ->
    fst (run_ops ops bus)
      = map (fun k => (handlerIdCounter_ bus + N.of_nat k)%N)
            (seq 1 (count_subscribes ops)) /\
    handlerIdCounter_ (snd (run_ops ops bus))
      = (handlerIdCounter_ bus + N.of_nat (count_subscribes ops))%N.
Proof.
  induction ops as [|op ops IH]; intros bus Hcount.
  - change (count_subscribes (@nil (@RegistryOp V))) with 0%nat.
    simpl. split; [reflexivity | lia].
  - destruct op as [T pattern h prio | i].
    + change (count_subscribes (OpSubscribe T pattern h prio :: ops))
        with (S (count_subscribes ops)) in *.
      cbn [run_ops].
      destruct (subscribe T pattern h prio bus) as [j bus1] eqn:Hsub.
      unfold subscribe in Hsub. injection Hsub as Hj Hbus1.
      rewrite size_t_wrap_succ in Hj by lia.
      assert (Hctr : handlerIdCounter_ bus1 = (handlerIdCounter_ bus + 1)%N)
        by (rewrite <- Hbus1; simpl; rewrite size_t_wrap_succ by lia; reflexivity).
      destruct (IH bus1) as [Hids Hc]; [rewrite Hctr; lia|].
      destruct (run_ops ops bus1) as [ids bus2]. simpl in Hids, Hc. simpl fst. simpl snd.
      split; [|rewrite Hc, Hctr; lia].
      cbn [seq map]. f_equal; [lia|].
      rewrite <- seq_shift, map_map, Hids, Hctr.
      apply map_ext. intros k. lia.
    + change (count_subscribes (OpUnsubscribe i :: ops))
        with (count_subscribes ops) in *.
      cbn [run_ops]. apply (IH (unsubscribe i bus)). exact Hcount.
Qed.

(** X16.  Until the counter wraps, the [subscribe] calls on a new bus return
    1, 2, 3, ... in the order of the calls, whatever [unsubscribe] calls
    come between them: an identifier given up is not given out again, and
    the counter is the number of [subscribe] calls made. *)
Theorem subscribe_returns_consecutive_identifiers :
  forall ops : list (@RegistryOp V),
    (N.of_nat (count_subscribes ops) < size_t_modulus)%N ->
    fst (run_ops ops EventBus_new) = map N.of_nat (seq 1 (count_subscribes ops)) /\
    handlerIdCounter_ (snd (run_ops ops EventBus_new))
      = N.of_nat (count_subscribes ops).
Proof.
  intros ops Hcount.
  destruct (run_ops_identifiers ops EventBus_new) as [Hids Hc]; [simpl; lia|].
  split; [|rewrite Hc; simpl; lia].
  rewrite Hids. apply map_ext. intros k. simpl. lia.
Qed.

(** ** A message of a type that no subscription takes *)

Lemma post_invoke_all_mismatched (U : type_info) (m : V) (msg : loc)
    (handlers : list (@Subscription V)) :
  List.Forall (fun sub => exists T h, handler sub = wrappedHandler T h /\ T <> U) handlers ->
  forall H (results : list Response),
    H !! msg = Some (TypedMessage U m) ->
    let r := post_invoke handlers msg H results in
    completion r
      = Completed (results ++ map (fun _ => ResponseVoid TypedResponseVoid_default) handlers) /\
    map inv_sub (trace r) = handlers /\
    final_heap r = H.
Proof.
  induction 1 as [|sub rest (T & h & Hw & Hne) _ IH]; intros H results Hm; simpl.
  - rewrite app_nil_r. repeat split.
  - assert (Hcall : handler sub msg H
                    = (Returns (Some (ResponseVoid TypedResponseVoid_default)), H)).
    { rewrite Hw. unfold wrappedHandler, dynamic_pointer_cast.
      unfold Heap, loc in *. rewrite Hm.
      assert (HUT : String.eqb U T = false) by (apply String.eqb_neq; congruence).
      rewrite HUT. reflexivity. }
    rewrite Hcall. simpl.
    destruct (IH H (results ++ [ResponseVoid TypedResponseVoid_default]) Hm)
      as (Hc & Ht & Hf).
    rewrite Hc, Ht, Hf. rewrite <- app_assoc. repeat split.
Qed.

(** X17.  When every subscription was made for a type other than the type
    posted (and no pattern is empty), [post] calls none of the callers'
    handlers and leaves the store with the envelope as its only new object,
    and yet returns one valid [TypedResponse<void>] capsule for each
    subscription whose pattern matches the topic. *)
Theorem post_of_untaken_type_returns_void_capsules :
  forall (U : type_info) (tp : Topic) (m : V) bus H,
    List.Forall (fun sub => topicPattern sub <> "" /\
                            exists T h, handler sub = wrappedHandler T h /\ T <> U)
                (subscriptions_ bus) ->
    let r := post U tp m bus H in
    completion r
      = Completed (map (fun _ => ResponseVoid TypedResponseVoid_default)
                       (List.filter (matches tp) (subscriptions_ bus))) /\
    map inv_sub (trace r) = List.filter (matches tp) (subscriptions_ bus) /\
    final_heap r = H ++ [TypedMessage U m] /\
    isValid (@ResponseVoid V TypedResponseVoid_default) = true.
Proof.
  intros U tp m bus H Hall r. subst r. unfold post. simpl.
  rewrite snapshotMatching_defined.
  2:{ eapply List.Forall_impl; [|exact Hall]. intros sub [Hne _].
      apply isTopicMatch_defined, Hne. }
  destruct (post_invoke_all_mismatched U m (List.length H)
              (List.filter (matches tp) (subscriptions_ bus)))
    with (H := H ++ [TypedMessage U m]) (results := @nil (@Response V))
    as (Hc & Ht & Hf).
  - apply List.Forall_forall. intros sub Hs. apply filter_In in Hs as [Hs _].
    rewrite List.Forall_forall in Hall. apply (Hall sub Hs).
  - unfold Heap. rewrite lookup_app_r by lia. rewrite Nat.sub_diag. reflexivity.
  - repeat split; assumption.
Qed.

(** ** The worker, one handler call at a time *)

Lemma thread_system_run_app (acts1 acts2 : list (@Action V)) (t : @Thread V) :
  thread_system_run (acts1 ++ acts2) t
  = match thread_system_run acts1 t with
    | None => None
    | Some t1 => thread_system_run acts2 t1
    end.
Proof.
  revert t. induction acts1 as [|a acts1 IH]; intros t; [reflexivity|].
  simpl. destruct (thread_system_step a t); [apply IH | reflexivity].
Qed.

(** Left alone, the thread goes through the handlers left as
    [dispatch_invoke] does. *)
Lemma thread_calls_as_dispatch_invoke (handlers : list (@Subscription V)) (msg : loc) :
  forall t : @Thread V,
    point t = PCalling handlers msg ->
    let d := dispatch_invoke handlers msg (t_heap t) in
    exists n,
      thread_system_run (repeat WorkerStep n) t
      = Some {| point := match completion d with
                         | Completed _ => PWhile
                         | Propagated _ => PTerminated
                         | UndefinedBehaviour => PUndefined
                         end;
                t_bus := t_bus t;
                t_heap := final_heap d;
                t_called := t_called t ++ trace d |}.
Proof.
  induction handlers as [|sub rest IH]; intros t Hp; cbv zeta.
  - exists 1%nat. simpl. unfold thread_step. rewrite Hp. simpl.
    rewrite app_nil_r. destruct t; reflexivity.
  - cbn [dispatch_invoke].
    destruct (handler sub msg (t_heap t)) as [out H'] eqn:Hcall.
    set (inv := {| inv_sub := sub; inv_heap := t_heap t; inv_outcome := out |}).
    set (t1 := {| point := PCalling rest msg; t_bus := t_bus t; t_heap := H';
                  t_called := t_called t ++ [inv] |}).
    assert (Hgo : thread_step t = Some t1 ->
               exists n,
                 thread_system_run (repeat WorkerStep n) t
                 = Some {| point := match completion (dispatch_invoke rest msg H') with
                                    | Completed _ => PWhile
                                    | Propagated _ => PTerminated
                                    | UndefinedBehaviour => PUndefined
                                    end;
                           t_bus := t_bus t;
                           t_heap := final_heap (dispatch_invoke rest msg H');
                           t_called := t_called t
                                       ++ inv :: trace (dispatch_invoke rest msg H') |}).
    { intros Hstep. destruct (IH t1 eq_refl) as [n Hn].
      exists (S n). cbn [repeat thread_system_run thread_system_step].
      rewrite Hstep, Hn. unfold t1. cbn [t_heap t_bus t_called].
      rewrite <- app_assoc. reflexivity. }
    destruct out as [r|e].
    + apply Hgo. unfold thread_step. rewrite Hp, Hcall. reflexivity.
    + destruct (derived_from_std_exception e) eqn:He.
      * apply Hgo. unfold thread_step. rewrite Hp, Hcall, He. reflexivity.
      * exists 1%nat. cbn [repeat thread_system_run thread_system_step].
        unfold thread_step. rewrite Hp, Hcall, He. reflexivity.
Qed.

(** X13.  The worker thread as the source has it, with the queue lock
    released after the [pop], the registry lock held for the copy only and
    the handlers called one by one, performs, when no other thread acts and
    no handler calls back into the bus, exactly the dispatch that one step
    of [dispatchLoop_step] makes: the same message is taken, the same
    handlers are called with the same outcomes, and the store, the bus and
    the program point reached are the same. *)
Theorem thread_alone_performs_the_dispatch_step :
  forall (t : @Thread V) (event : MessageEvent) (q : list MessageEvent),
    point t = PLocked ->
    running_ (t_bus t) = true ->
    messageQueue_ (t_bus t) = event :: q ->
    exists n t' p',
      thread_system_run (repeat WorkerStep n) t = Some t' /\
      dispatchLoop_step (as_worker AfterWait t) = Some (as_worker p' t') /\
      point t' = point_of p' /\
      messageQueue_ (t_bus t') = q.
Proof.
  intros t event q Hp Hrun Hq.
  unfold dispatchLoop_step, as_worker. cbn [pc bus_of heap_of delivered].
  rewrite Hrun, Hq. cbn [negb].
  assert (Hpop : thread_step t
                 = Some {| point := PSnapshot event; t_bus := dequeue (t_bus t) q;
                           t_heap := t_heap t; t_called := t_called t |})
    by (unfold thread_step; rewrite Hp, Hrun, Hq; reflexivity).
  cbn [dequeue subscriptions_].
  destruct (snapshotMatching (subscriptions_ (t_bus t)) (topic event))
    as [handlers|] eqn:Hsnap.
  - destruct (thread_calls_as_dispatch_invoke handlers (message event)
                {| point := PCalling handlers (message event);
                   t_bus := dequeue (t_bus t) q;
                   t_heap := t_heap t; t_called := t_called t |} eq_refl)
      as [n Hn].
    cbv zeta in Hn. cbn [t_heap t_bus t_called] in Hn.
    eexists (S (S n)), _,
      (match completion (dispatch_invoke handlers (message event) (t_heap t)) with
       | Completed _ => AtWhile
       | Propagated _ => Terminated
       | UndefinedBehaviour => Undefined
       end).
    split; [|split; [|split]].
    + cbn [repeat thread_system_run thread_system_step]. rewrite Hpop.
      unfold thread_step at 1. cbn [point t_bus dequeue subscriptions_]. rewrite Hsnap.
      unfold at_point. cbn [t_bus t_heap t_called]. exact Hn.
    + reflexivity.
    + cbn [point].
      destruct (completion (dispatch_invoke handlers (message event) (t_heap t)));
        reflexivity.
    + reflexivity.
  - exists 2%nat. eexists. exists Undefined.
    split; [|split; [|split]].
    + cbn [repeat thread_system_run thread_system_step]. rewrite Hpop.
      unfold thread_step. cbn [point t_bus dequeue subscriptions_]. rewrite Hsnap.
      reflexivity.
    + reflexivity.
    + reflexivity.
    + reflexivity.
Qed.

(** ** After [stop()] *)



End EventBusFurther.

(** ** The further properties on the scenarios *)

Lemma priority_bus_le_sorted : StronglySorted le_priority (subscriptions_ priority_bus).
Proof.
  eapply StronglySorted_weaken; [|exact priority_bus_sorted].
  unfold registry_order, le_priority. intros a b [Hlt | [Heq _]]; lia.
Qed.

Lemma priority_bus_behaves :
  List.Forall (fun sub => throws_only_std (handler sub) /\ never_null (handler sub))
              (subscriptions_ priority_bus).
Proof.
  eapply List.Forall_impl; [|apply (priority_bus_well_made 0)].
  intros sub (_ & Hstd & Hnn & _). split; assumption.
Qed.

Lemma subscribe_inserts_behind_equal_priorities_witness :
  map id (subscriptions_ (snd (subscribe TradeEvent "trade.new" void_handler 10 priority_bus)))
  = [5%N; 2%N; 3%N; 6%N; 1%N].
Proof.
  rewrite (subscribe_inserts_behind_equal_priorities
             TradeEvent "trade.new" void_handler 10 priority_bus priority_bus_le_sorted).
  vm_compute. reflexivity.
Defined.

Lemma priority_bus_next_identifier_absent :
  absent (size_t_wrap (Z.of_N (handlerIdCounter_ priority_bus) + 1)) priority_bus.
Proof.
  assert (Hi : size_t_wrap (Z.of_N (handlerIdCounter_ priority_bus) + 1) = 6%N)
    by (vm_compute; reflexivity).
  rewrite Hi. intros sub Hin.
  assert (Hids : List.Forall (fun i => i <> 6%N) (map id (subscriptions_ priority_bus)))
    by (vm_compute; repeat constructor; discriminate).
  rewrite List.Forall_forall in Hids. apply Hids, in_map, Hin.
Qed.

Lemma unsubscribe_undoes_subscribe_witness :
  let s := subscribe TradeEvent "trade.new" void_handler 10 priority_bus in
  subscriptions_ (unsubscribe (fst s) (snd s)) = subscriptions_ priority_bus /\
  handlerIdCounter_ (unsubscribe (fst s) (snd s)) = 6%N.
Proof.
  intros s.
  pose proof (unsubscribe_undoes_subscribe TradeEvent "trade.new" void_handler 10
                priority_bus priority_bus_le_sorted priority_bus_next_identifier_absent)
    as (Hsubs & _ & _ & Hctr).
  split; [exact Hsubs|]. etransitivity; [exact Hctr|]. vm_compute. reflexivity.
Defined.

Lemma empty_pattern_spoils_every_post_witness :
  completion (post TradeEvent "trade.test" 15025%Z empty_pattern_bus []) = UndefinedBehaviour /\
  completion (post TradeEvent "risk.check" 15025%Z empty_pattern_bus []) = UndefinedBehaviour.
Proof.
  assert (Hempty : exists sub, In sub (subscriptions_ empty_pattern_bus) /\
                               topicPattern sub = "").
  { exists empty_pattern_subscription. split; [|reflexivity].
    vm_compute. right. left. reflexivity. }
  split.
  - apply (empty_pattern_spoils_every_post TradeEvent "trade.test" 15025%Z
             empty_pattern_bus []). exact Hempty.
  - apply (empty_pattern_spoils_every_post TradeEvent "risk.check" 15025%Z
             empty_pattern_bus []). exact Hempty.
Defined.

Lemma post_invoke_composes_witness :
  let H := [TypedMessage TradeEvent 15025%Z] in
  let l1 := subscriptions_ priority_bus in
  let l2 := [void_subscription] in
  trace (post_invoke (l1 ++ l2) 0%nat H [])
  = trace (post_invoke l1 0%nat H [])
    ++ trace (post_invoke l2 0%nat (final_heap (post_invoke l1 0%nat H []))
                (flat_map contribution (trace (post_invoke l1 0%nat H [])))).
Proof.
  intros H l1 l2.
  rewrite (post_invoke_composes l1 l2 0%nat H [] priority_bus_behaves).
  reflexivity.
Defined.

Lemma post_invoke_stops_at_foreign_exception_witness :
  let H := [TypedMessage TradeEvent 15025%Z] in
  let l1 := subscriptions_ priority_bus in
  let r := post_invoke (l1 ++ int_subscription :: [void_subscription]) 0%nat H [] in
  completion r = Propagated (foreign_exception "int") /\
  map inv_sub (trace r) = l1 ++ [int_subscription].
Proof.
  intros H l1 r. subst r.
  destruct (handler int_subscription 0%nat (final_heap (post_invoke l1 0%nat H [])))
    as [out H'] eqn:Hcall.
  assert (Hout : out = Throws (foreign_exception "int")).
  { change out with (fst (out, H')). rewrite <- Hcall. vm_compute. reflexivity. }
  subst out.
  destruct (post_invoke_stops_at_foreign_exception l1 [void_subscription]
              int_subscription 0%nat H H' (foreign_exception "int") []
              priority_bus_behaves Hcall eq_refl) as (Hc & Hm & _).
  split; assumption.
Defined.

Lemma worker_dispatch_agrees_with_post_witness :
  exists w',
    dispatchLoop_step (woken_worker TradeEvent "trade.priority" 15025%Z
                         (start priority_bus) [] []) = Some w' /\
    delivered w' = trace (post TradeEvent "trade.priority" 15025%Z (start priority_bus) []) /\
    heap_of w' = final_heap (post TradeEvent "trade.priority" 15025%Z (start priority_bus) []).
Proof.
  destruct (worker_dispatch_agrees_with_post TradeEvent "trade.priority" 15025%Z
              (start priority_bus) [] []) as (w' & Hstep & Hdel & Hheap & _).
  - reflexivity.
  - reflexivity.
  - change (subscriptions_ (start priority_bus)) with (subscriptions_ priority_bus).
    eapply List.Forall_impl; [|exact priority_bus_behaves]. intros sub [_ Hnn]. exact Hnn.
  - exists w'. split; [exact Hstep|]. split; [exact Hdel | exact Hheap].
Defined.

Lemma worker_drains_queue_in_order_witness :
  exists w' tr,
    system_run (repeat WorkerStep 6) queued_worker = Some w' /\
    pc w' = AtWhile /\
    messageQueue_ (bus_of w') = [] /\
    delivered w' = tr /\
    map (fun inv => id (inv_sub inv)) tr = [5%N; 2%N; 3%N; 1%N; 2%N].
Proof.
  destruct (worker_drains_queue_in_order (messageQueue_ (bus_of queued_worker)) queued_worker)
    as (w' & tr & Hrun & Hpc & Hq & Hdel & Htr & _).
  - reflexivity.
  - reflexivity.
  - reflexivity.
  - change (subscriptions_ (bus_of queued_worker)) with (subscriptions_ priority_bus).
    eapply List.Forall_impl; [|apply (priority_bus_well_made 0)].
    intros sub (Hne & Hstd & _). split; assumption.
  - exists w', tr. split; [exact Hrun|]. split; [exact Hpc|]. split; [exact Hq|].
    split; [exact Hdel|].
    rewrite <- (map_map inv_sub id), Htr. vm_compute. reflexivity.
Defined.

Lemma post_calls_new_subscription_witness :
  let s := subscribe TradeEvent "trade.*" void_handler 10 priority_bus in
  In (new_subscription TradeEvent "trade.*" void_handler 10 priority_bus)
     (map inv_sub (trace (post TradeEvent "trade.priority" 15025%Z (snd s) []))) /\
  fst s = 6%N.
Proof.
  intros s.
  pose proof (post_calls_new_subscription TradeEvent TradeEvent "trade.*" "trade.priority"
                void_handler 10 15025%Z priority_bus [] eq_refl
                (proj1 void_handler_behaves) (proj1 (proj2 void_handler_behaves)))
    as Hpost.
  destruct Hpost as (_ & Hin & Hid).
  - eapply List.Forall_impl; [|apply (priority_bus_well_made 0)].
    intros sub (Hne & Hstd & Hnn & _). repeat split; assumption.
  - split; [exact Hin|]. vm_compute. reflexivity.
Defined.

Lemma subscribe_returns_consecutive_identifiers_witness :
  fst (run_ops priority_ops EventBus_new) = [1%N; 2%N; 3%N; 4%N; 5%N] /\
  handlerIdCounter_ priority_bus = 5%N.
Proof.
  destruct (subscribe_returns_consecutive_identifiers priority_ops) as [Hids Hc];
    [vm_compute; reflexivity|].
  split; [rewrite Hids | unfold priority_bus; rewrite Hc]; vm_compute; reflexivity.
Defined.

Lemma post_of_untaken_type_witness :
  let r := post TradeEvent "basic.trade" 15025%Z void_only_bus [] in
  completion r = Completed [ResponseVoid TypedResponseVoid_default] /\
  final_heap r = [TypedMessage TradeEvent 15025%Z].
Proof.
  intros r. subst r.
  destruct (post_of_untaken_type_returns_void_capsules TradeEvent "basic.trade" 15025%Z
              void_only_bus []) as (Hc & _ & Hf & _).
  - change (subscriptions_ void_only_bus)
      with [ {| id := 1%N; topicPattern := "basic.trade";
                handler := wrappedHandler VoidMessage void_handler;
                priority := 0%Z |} ].
    constructor; [|constructor]. simpl. split; [discriminate|].
    exists VoidMessage, void_handler. split; [reflexivity | discriminate].
  - split; [rewrite Hc; vm_compute; reflexivity | exact Hf].
Defined.

Lemma thread_alone_performs_the_dispatch_step_witness :
  exists n t' p',
    thread_system_run (repeat WorkerStep n) locked_thread = Some t' /\
    dispatchLoop_step dispatching_worker = Some (as_worker p' t') /\
    point t' = point_of p' /\
    messageQueue_ (t_bus t') = [].
Proof.
  apply (thread_alone_performs_the_dispatch_step locked_thread
           {| topic := "trade.priority"; message := 0%nat |} []); reflexivity.
Defined.

